(** * A shallow embedding of the SDEverywhere model analyzer (src/Model.js)
    and of the spec loading of src/sde-generate.js.

    The module-level tables of Model.js ([variables], [nonAtoANames]) and the
    subscript registry of Subscript.js are passed explicitly.  Ramda helpers
    and JS builtins are modelled by their documented behaviour. *)

From Stdlib Require Import List String Ascii Bool Arith NArith ZArith Lia.
From Stdlib Require Import Sorting.Sorted Sorting.Permutation.
Import ListNotations.
Open Scope string_scope.
Open Scope list_scope.

(** ** Generic helpers (Ramda / JS builtins) *)

Section Generic.
  Context {A : Type}.

  (** A stable insertion sort by a boolean "less or equal" test: the model of
      [Array.prototype.sort] / [R.sort] for a consistent comparator. *)
Fixpoint insert_by (le : A -> A -> bool) (x : A) (l : list A) : list A :=
    match l with
    | [] => [x]
    | y :: l' => if le x y then x :: y :: l' else y :: insert_by le x l'
    end.

Fixpoint sort_by (le : A -> A -> bool) (l : list A) : list A :=
    match l with
    | [] => []
    | x :: l' => insert_by le x (sort_by le l')
    end.

  (** [R.uniq]: keep the first occurrence of each element. *)
Fixpoint uniq_from (dec : forall x y : A, {x = y} + {x <> y})
      (seen : list A) (l : list A) : list A :=
    match l with
    | [] => []
    | x :: r =>
        if in_dec dec x seen then uniq_from dec seen r
        else x :: uniq_from dec (x :: seen) r
    end.

Definition uniq dec (l : list A) : list A := uniq_from dec [] l.

  (** JS [arr[i] = x] on an array with holes: positions past the end are
      filled with holes ([None]). *)
Fixpoint set_at (i : nat) (x : A) (l : list (option A)) : list (option A) :=
    match i, l with
    | O, [] => [Some x]
    | O, _ :: r => Some x :: r
    | S i', [] => None :: set_at i' x []
    | S i', y :: r => y :: set_at i' x r
    end.
End Generic.

(** [arr.join(sep)] *)
Fixpoint join (sep : string) (l : list string) : string :=
  match l with
  | [] => ""
  | [x] => x
  | x :: rest => String.append x (String.append sep (join sep rest))
  end.

(** JS string order on ASCII strings ([<=] on code units). *)
Definition str_le (a b : string) : bool := String.leb a b.

(** ** The variable table *)

Inductive VarType := Const | Data | Lookup | Aux | Level | Initial | Untyped.

Definition VarType_eq_dec (a b : VarType) : {a = b} + {a <> b}.
Proof. decide equality. Defined.

Record Variable_ := mkVariable {
  varName : string;
  subscripts : list string;
  refId : string;
  varType : VarType;
  hasInitValue : bool;
  references : list string;
  initReferences : list string
}.

Definition Variable_eq_dec (a b : Variable_) : {a = b} + {a <> b}.
Proof.
  decide equality;
    try apply list_eq_dec; try apply string_dec;
    try apply bool_dec; try apply VarType_eq_dec.
Defined.

(** Modelled from the spec: [Variable.hasSubscripts] (Variable.js, not in
    the sources): a variable has subscripts when its subscript list is
    nonempty. *)
Definition hasSubscripts (v : Variable_) : bool :=
  match subscripts v with [] => false | _ => true end.

(** [varsWithName]: [R.filter(R.propEq('varName', varName), variables)] *)
Definition varsWithName (varName' : string) (variables : list Variable_) :=
  filter (fun v => String.eqb (varName v) varName') variables.

(** [varNames]: [R.uniq(R.map(v => v.varName, variables)).sort()] *)
Definition varNames (variables : list Variable_) : list string :=
  sort_by str_le (uniq string_dec (map varName variables)).

(** The [nonAtoANames] object: var name -> expansion flags. *)
Definition NonAtoAMap := list (string * list bool).

Definition isNonAtoAName (nonAtoANames : NonAtoAMap) (name : string) : bool :=
  existsb (fun p => String.eqb (fst p) name) nonAtoANames.

(** [obj[k] = x] on the registry object. *)
Fixpoint assoc_set (k : string) (x : list bool) (m : NonAtoAMap) : NonAtoAMap :=
  match m with
  | [] => [(k, x)]
  | (k', y) :: r => if String.eqb k' k then (k, x) :: r else (k', y) :: assoc_set k x r
  end.

Definition opt_str_eqb (a b : option string) : bool :=
  match a, b with
  | Some x, Some y => String.eqb x y
  | None, None => true
  | _, _ => false
  end.

(** [areSubsEqual(vars, i)] *)
Definition areSubsEqual (vars : list Variable_) (i : nat) : bool :=
  match vars with
  | [] => true
  | v0 :: _ =>
      let subscript := nth_error (subscripts v0) i in
      forallb (fun v => opt_str_eqb (nth_error (subscripts v) i) subscript) vars
  end.

Definition expansionDimsOf (vars : list Variable_) : list bool :=
  match vars with
  | [] => []
  | v0 :: _ => map (fun i => negb (areSubsEqual vars i)) (seq 0 (List.length (subscripts v0)))
  end.

(** [findNonAtoAVars()] *)
Definition findNonAtoAVars (variables : list Variable_) (nonAtoANames : NonAtoAMap)
    : NonAtoAMap :=
  fold_left
    (fun acc name =>
       let vars := varsWithName name variables in
       if Nat.ltb 1 (List.length vars) then assoc_set name (expansionDimsOf vars) acc else acc)
    (varNames variables) nonAtoANames.

(** [refIdForVar(v)] *)
Definition refIdForVar (nonAtoANames : NonAtoAMap) (v : Variable_) : string :=
  if hasSubscripts v && isNonAtoAName nonAtoANames (varName v)
  then String.append (varName v) (String.append "[" (String.append (join "," (subscripts v)) "]"))
  else varName v.

Definition withRefId (v : Variable_) (r : string) : Variable_ :=
  {| varName := varName v; subscripts := subscripts v; refId := r;
     varType := varType v; hasInitValue := hasInitValue v;
     references := references v; initReferences := initReferences v |}.

(** [setRefIds()] *)
Definition setRefIds (nonAtoANames : NonAtoAMap) (variables : list Variable_) :=
  map (fun v => withRefId v (refIdForVar nonAtoANames v)) variables.

(** The first two stages of [analyze()], run on the module's initially empty
    [nonAtoANames]; the table they produce and the registry. *)
Definition assignRefIds (variables : list Variable_) : NonAtoAMap * list Variable_ :=
  let nonAtoANames := findNonAtoAVars variables [] in
  (nonAtoANames, setRefIds nonAtoANames variables).

(** ** The subscript registry (Subscript.js, not in the sources)

    Modelled from the spec: a subscript is a dimension (name, ordered index
    names [value], [size], [family], mappings to other dimensions) or an
    index (name, position, family); [sub(name)] looks a name up. *)

Record Dimension := mkDimension {
  name : string;
  value : list string;
  size : nat;
  family : string;
  mappings : list (string * list (option string))
}.

Record Index := mkIndex { iname : string; ivalue : nat; ifamily : string }.

Inductive Subscript := SubDim (d : Dimension) | SubIdx (i : Index).

Record Registry := mkRegistry { dimensions : list Dimension; indices : list Index }.

(** Modelled from the spec: [sub(name)]. *)
Definition sub (reg : Registry) (n : string) : option Subscript :=
  match find (fun d => String.eqb (name d) n) (dimensions reg) with
  | Some d => Some (SubDim d)
  | None => option_map SubIdx (find (fun i => String.eqb (iname i) n) (indices reg))
  end.

(** Modelled from the spec: [isDimension(name)], [isIndex(name)]. *)
Definition isDimension (reg : Registry) (n : string) : bool :=
  match sub reg n with Some (SubDim _) => true | _ => false end.

Definition isIndex (reg : Registry) (n : string) : bool :=
  match sub reg n with Some (SubIdx _) => true | _ => false end.

(** Modelled from the spec: the family of a subscript name (an unknown name
    is its own family). *)
Definition familyOf (reg : Registry) (n : string) : string :=
  match sub reg n with
  | Some (SubDim d) => family d
  | Some (SubIdx i) => ifamily i
  | None => n
  end.

(** Modelled from the spec: [normalizeSubscripts(list)] sorts a subscript
    list by family name in ascending order (a stable sort). *)
Definition normalizeSubscripts (reg : Registry) (subs : list string) : list string :=
  sort_by (fun a b => str_le (familyOf reg a) (familyOf reg b)) subs.

(** A subscript list is in normal order when it is sorted by family. *)
Definition normalOrder (reg : Registry) (subs : list string) : Prop :=
  Sorted (fun a b => str_le (familyOf reg a) (familyOf reg b) = true) subs.

(** ** [splitRefId]: the regular expression [/\w+|\[/g] run with [exec] *)

(** [\w]: [A-Za-z0-9_] *)
Definition is_word_char (c : ascii) : bool :=
  let n := nat_of_ascii c in
  (Nat.leb 48 n && Nat.leb n 57) || (Nat.leb 65 n && Nat.leb n 90)
  || (Nat.leb 97 n && Nat.leb n 122) || Nat.eqb n 95.

Definition flush (w : string) : list string :=
  match w with EmptyString => [] | _ => [w] end.

(** The successive matches of [/\w+|\[/g]: maximal runs of word characters
    and single ['['] characters; every other character is skipped.  [w] is
    the word run read so far. *)
Fixpoint lexRefId (w : string) (s : string) : list string :=
  match s with
  | EmptyString => flush w
  | String c s' =>
      if is_word_char c then lexRefId (String.append w (String c EmptyString)) s'
      else flush w ++ (if Ascii.eqb c "[" then ["["] else []) ++ lexRefId EmptyString s'
  end.

(** The [while ((m = re.exec(refId)))] loop of [splitRefId]. *)
Fixpoint splitMatches (inSubs : bool) (varName' : string) (subs : list string)
    (ms : list string) : string * list string :=
  match ms with
  | [] => (varName', subs)
  | m :: rest =>
      if String.eqb m "[" then splitMatches true varName' subs rest
      else if inSubs then splitMatches inSubs varName' (subs ++ [m]) rest
      else splitMatches inSubs m subs rest
  end.

(** [splitRefId(refId)] returns [{ varName, subscripts }]. *)
Definition splitRefId (reg : Registry) (refId' : string) : string * list string :=
  let '(vn, subs) := splitMatches false "" [] (lexRefId "" refId') in
  (vn, normalizeSubscripts reg subs).

Fixpoint all_word_chars (s : string) : bool :=
  match s with
  | EmptyString => true
  | String c s' => is_word_char c && all_word_chars s'
  end.

(** A name made of word characters only ([\w+]). *)
Definition word (s : string) : Prop := s <> EmptyString /\ all_word_chars s = true.

(** ** Reference resolution: [varWithRefId] *)

(** [sub(dim).value.includes(index)] *)
Definition dimIncludes (reg : Registry) (dim ix : string) : bool :=
  match sub reg dim with
  | Some (SubDim d) => existsb (String.eqb ix) (value d)
  | _ => false
  end.

(** One position of the subscript comparison; [r] is [refSubscripts[pos]],
    which is [undefined] ([None]) past the end of the reference's list. *)
Definition subscriptMatches (reg : Registry) (s : string) (r : option string) : bool :=
  let isIdx o := match o with Some x => isIndex reg x | None => false end in
  let isDim o := match o with Some x => isDimension reg x | None => false end in
  if (isIndex reg s && isIdx r) || (isDimension reg s && isDim r) then
    opt_str_eqb (Some s) r
  else if isDimension reg s && isIdx r then
    match r with Some x => dimIncludes reg s x | None => false end
  else false.

(** The [for (let pos = 0; pos < subscripts.length; pos++)] loop. *)
Fixpoint subscriptsMatch (reg : Registry) (subs refSubs : list string) : bool :=
  match subs with
  | [] => true
  | s :: subs' => subscriptMatches reg s (hd_error refSubs) && subscriptsMatch reg subs' (tl refSubs)
  end.

Definition findByRefId (variables : list Variable_) (r : string) : option Variable_ :=
  find (fun v => String.eqb (refId v) r) variables.

(** [refIdsWithName(varName)] *)
Definition refIdsWithName (varName' : string) (variables : list Variable_) : list string :=
  map refId (varsWithName varName' variables).

(** [varWithRefId(refId)]; [None] is the [undefined] returned (after an
    error message) when no variable is found. *)
Definition varWithRefId (reg : Registry) (variables : list Variable_) (r : string)
    : option Variable_ :=
  match findByRefId variables r with
  | Some v => Some v
  | None =>
      let '(refVarName, refSubscripts) := splitRefId reg r in
      match find (fun varRefId => subscriptsMatch reg (snd (splitRefId reg varRefId)) refSubscripts)
                 (refIdsWithName refVarName variables) with
      | Some varRefId => findByRefId variables varRefId
      | None => None
      end
  end.

(** ** Constant-reference pruning: [removeConstRefs] *)

Definition isConstType (t : VarType) : bool :=
  match t with Const | Data | Lookup => true | _ => false end.

(** [refIsConst(refId)]: [v && (v.varType === 'const' || ...)] *)
Definition refIsConst (reg : Registry) (variables : list Variable_) (r : string) : bool :=
  match varWithRefId reg variables r with
  | Some v => isConstType (varType v)
  | None => false
  end.

Definition withRefs (v : Variable_) (refs irefs : list string) : Variable_ :=
  {| varName := varName v; subscripts := subscripts v; refId := refId v;
     varType := varType v; hasInitValue := hasInitValue v;
     references := refs; initReferences := irefs |}.

(** The [R.forEach] of [removeConstRefs], which updates the records of the
    table in place: the record at each step is pruned against the current
    table ([done] already pruned, [todo] not yet). *)
Fixpoint removeConstRefsFrom (reg : Registry) (done todo : list Variable_) : list Variable_ :=
  match todo with
  | [] => done
  | v :: rest =>
      let refIsConst' := refIsConst reg (done ++ v :: rest) in
      let v' := withRefs v (filter (fun r => negb (refIsConst' r)) (references v))
                           (filter (fun r => negb (refIsConst' r)) (initReferences v)) in
      removeConstRefsFrom reg (done ++ [v']) rest
  end.

Definition removeConstRefs (reg : Registry) (variables : list Variable_) : list Variable_ :=
  removeConstRefsFrom reg [] variables.

(** What reference resolution reads of a record. *)
Definition varKey (v : Variable_) : string * string * VarType :=
  (refId v, varName v, varType v).

(** How a refId [r] binds a record [w] by the matching rules: directly by
    refId, or by varName and position-wise subscript matching. *)
Definition bindsTo (reg : Registry) (r : string) (w : Variable_) : Prop :=
  refId w = r \/
  (varName w = fst (splitRefId reg r) /\
   subscriptsMatch reg (snd (splitRefId reg (refId w))) (snd (splitRefId reg r)) = true).

(** A small table used in the examples: one scalar [_x] whose equation
    refers to a variable [_y] that the model does not define. *)
Definition emptyRegistry : Registry := mkRegistry [] [].

Definition danglingVars : list Variable_ :=
  [mkVariable "_x" [] "" Aux false ["_y"] []].

Definition danglingTable : list Variable_ :=
  removeConstRefs emptyRegistry (snd (assignRefIds danglingVars)).

(** ** Option plumbing for code paths that throw *)

Definition obind {A B} (m : option A) (k : A -> option B) : option B :=
  match m with Some a => k a | None => None end.

Notation "x <- m ;; k" := (obind m (fun x => k))
  (at level 61, m at next level, right associativity).

(** [R.map(f, l)] where [f] fails (throws) on some element. *)
Fixpoint map_option {A B} (f : A -> option B) (l : list A) : option (list B) :=
  match l with
  | [] => Some []
  | x :: r => y <- f x ;; ys <- map_option f r ;; Some (y :: ys)
  end.

(** [x] occurs before [y] in [l]. *)
Definition before {A} (x y : A) (l : list A) : Prop :=
  exists l1 l2, l = l1 ++ l2 /\ In x l1 /\ In y l2.

(** ** [toposort] (./toposort.js, not in the sources)

    Modelled from the spec: a topological sort of an edge list.  It returns
    the nodes of the edges, each once, so that for an edge [[a, b]] the node
    [a] comes before [b], and fails ([None], reported as a dependency cycle
    after which the process exits) when the edges have a cycle.  Kahn's
    algorithm: repeatedly emit the first remaining node that has no edge
    from a remaining node. *)

Definition Graph := list (string * string).

Definition nodesOf (g : Graph) : list string :=
  uniq string_dec (flat_map (fun e => [fst e; snd e]) g).

Definition hasIncoming (g : Graph) (remaining : list string) (n : string) : bool :=
  existsb (fun e => String.eqb (snd e) n && existsb (String.eqb (fst e)) remaining) g.

Fixpoint kahn (fuel : nat) (g : Graph) (remaining : list string) : option (list string) :=
  match remaining with
  | [] => Some []
  | _ :: _ =>
      match fuel with
      | O => None
      | S fuel' =>
          match find (fun n => negb (hasIncoming g remaining n)) remaining with
          | None => None
          | Some n => rest <- kahn fuel' g (remove string_dec n remaining) ;; Some (n :: rest)
          end
      end
  end.

Definition toposort (g : Graph) : option (list string) :=
  kahn (List.length (nodesOf g)) g (nodesOf g).

(** Modelled from the spec: [vsort] (Helpers.js, not in the sources) sorts
    variables by refId. *)
Definition vsort (vars : list Variable_) : list Variable_ :=
  sort_by (fun a b => str_le (refId a) (refId b)) vars.

(** ** Step-time orderings: [sortVarsOfType] *)

Definition VarType_eqb (a b : VarType) : bool :=
  if VarType_eq_dec a b then true else false.

Definition isLevel (v : Variable_) : bool := VarType_eqb (varType v) Level.

(** [varsOfType(varType, vars)] *)
Definition varsOfType (t : VarType) (vars : list Variable_) : list Variable_ :=
  filter (fun v => VarType_eqb (varType v) t && negb (String.eqb (varName v) "_time")) vars.

(** [refs(v)] inside [sortVarsOfType]: the dependency pairs of [v].  An
    unresolved reference makes [R.propEq('varType', ...)] throw ([None]). *)
Definition depPairs (reg : Registry) (variables : list Variable_) (t : VarType)
    (v : Variable_) : option Graph :=
  refs <- map_option (varWithRefId reg variables) (references v) ;;
  let refs := uniq Variable_eq_dec (filter (fun r => VarType_eqb (varType r) t) refs) in
  Some (map (fun ref => if isLevel v && isLevel ref then (refId ref, refId v)
                        else (refId v, refId ref)) refs).

(** [graph = R.unnest(R.map(v => refs(v), vars))] *)
Definition depGraph (reg : Registry) (variables : list Variable_) (t : VarType)
    : option Graph :=
  pairs <- map_option (depPairs reg variables t) (varsOfType t variables) ;;
  Some (List.concat pairs).

(** [sortVarsOfType(varType)]; [None] when the code throws or exits. *)
Definition sortVarsOfType (reg : Registry) (variables : list Variable_) (t : VarType)
    : option (list Variable_) :=
  let vars := varsOfType t variables in
  graph <- depGraph reg variables t ;;
  sorted <- toposort graph ;;
  let deps := rev sorted in
  depVars <- map_option (varWithRefId reg variables) deps ;;
  let sortedVars := varsOfType t depVars in
  let nodepVars :=
    vsort (filter (fun v => if in_dec Variable_eq_dec v sortedVars then false else true) vars) in
  Some (nodepVars ++ sortedVars).

(** [v] participates in an edge of [g]. *)
Definition isNode (g : Graph) (n : string) : bool :=
  existsb (fun e => String.eqb (fst e) n || String.eqb (snd e) n) g.

(** ** Init-time ordering: [sortInitVars] *)

(** The references [addDepsToMap] follows: [v.hasInitValue ?
    v.initReferences : v.references]. *)
Definition followRefs (v : Variable_) : list string :=
  if hasInitValue v then initReferences v else references v.

(** [depsMap], a JS [Map] from refIds to reference lists in insertion order;
    [set] on a present key replaces its value in place. *)
Definition DepsMap := list (string * list string).

Fixpoint depsMap_get (m : DepsMap) (k : string) : option (list string) :=
  match m with
  | [] => None
  | (k', x) :: r => if String.eqb k k' then Some x else depsMap_get r k
  end.

Fixpoint depsMap_set (m : DepsMap) (k : string) (x : list string) : DepsMap :=
  match m with
  | [] => [(k, x)]
  | (k', y) :: r => if String.eqb k k' then (k, x) :: r else (k', y) :: depsMap_set r k x
  end.

(** One reference of the [R.forEach] in [addDepsToMap]: push the referenced
    record onto the queue unless it is already a key of [depsMap] (a stored
    list is an array, hence truthy), is a constant, or is already queued.
    The queue [vars] is held with its end first ([pop] takes the head,
    [push] conses); [v.copy()] is modelled as the record itself. *)
Definition queueRef (reg : Registry) (variables : list Variable_) (m : DepsMap)
    (vars : list Variable_) (r : string) : list Variable_ :=
  match depsMap_get m r with
  | Some _ => vars
  | None =>
      match varWithRefId reg variables r with
      | Some refVar =>
          if negb (VarType_eqb (varType refVar) Const)
             && negb (if in_dec Variable_eq_dec refVar vars then true else false)
          then refVar :: vars else vars
      | None => vars   (* console.error, then continue *)
      end
  end.

(** [addDepsToMap(v)], on the state ([depsMap], [vars]). *)
Definition addDepsToMap (reg : Registry) (variables : list Variable_) (v : Variable_)
    (st : DepsMap * list Variable_) : DepsMap * list Variable_ :=
  let '(m, vars) := st in
  match followRefs v with
  | [] => (m, vars)
  | refIds =>
      let m := depsMap_set m (refId v) refIds in
      (m, fold_left (queueRef reg variables m) refIds vars)
  end.

(** [while (vars.length > 0) addDepsToMap(vars.pop())]; [None] when the
    fuel runs out (the loop would not stop). *)
Fixpoint drainQueue (fuel : nat) (reg : Registry) (variables : list Variable_)
    (st : DepsMap * list Variable_) : option DepsMap :=
  match snd st with
  | [] => Some (fst st)
  | v :: rest =>
      match fuel with
      | O => None
      | S fuel' => drainQueue fuel' reg variables (addDepsToMap reg variables v (fst st, rest))
      end
  end.

(** [for (let refId of depsMap.keys()) ... graph.push([refId, dep])] *)
Definition initGraph (m : DepsMap) : Graph :=
  flat_map (fun e => map (fun d => (fst e, d)) (snd e)) m.

Definition isConstOrLookup (v : Variable_) : bool :=
  match varType v with Const | Lookup => true | _ => false end.

(** A bound on the iterations of the queue loop: each seed is popped once,
    and every other pop follows a push made for one followed reference. *)
Definition initFuel (variables : list Variable_) : nat :=
  S (List.length variables + fold_right (fun v n => List.length (followRefs v) + n) 0 variables).

(** [sortInitVars()]; [None] when the code throws or exits. *)
Definition sortInitVars (reg : Registry) (variables : list Variable_)
    : option (list Variable_) :=
  let initVars := filter hasInitValue variables in
  m <- drainQueue (initFuel variables) reg variables ([], rev initVars) ;;
  let graph := initGraph m in
  sorted <- toposort graph ;;
  let deps := rev sorted in
  sortedVars <- map_option (varWithRefId reg variables) deps ;;
  let sortedVars := filter (fun v => negb (isConstOrLookup v)) sortedVars in
  let nodepVars :=
    vsort (filter (fun v => if in_dec Variable_eq_dec v sortedVars then false else true)
             initVars) in
  Some (nodepVars ++ sortedVars).

(** The records the init-time walk reaches: the seeds ([hasInitValue]) and,
    from a reached record, every record named by a reference it follows. *)
Inductive initReachable (variables : list Variable_) : Variable_ -> Prop :=
| reach_seed v :
    In v variables -> hasInitValue v = true -> initReachable variables v
| reach_ref v w :
    initReachable variables v -> In w variables -> In (refId w) (followRefs v) ->
    initReachable variables w.

(** A record whose dependencies are settled in [depsMap]: it follows no
    reference, or its refId is a key. *)
Definition initDone (m : DepsMap) (x : Variable_) : Prop :=
  followRefs x = [] \/ exists ds, In (refId x, ds) m.

(** The invariant of the queue loop of [sortInitVars]: queued records and
    keys are reached, the keys hold the followed references of their
    record, every seed is queued or settled, and every record named under a
    key is queued or settled. *)
Definition walkInv (variables : list Variable_) (st : DepsMap * list Variable_) : Prop :=
  (forall x, In x (snd st) -> initReachable variables x) /\
  (forall k ds, In (k, ds) (fst st) ->
     exists x, initReachable variables x /\ refId x = k /\ ds = followRefs x) /\
  (forall x, In x variables -> hasInitValue x = true -> In x (snd st) \/ initDone (fst st) x) /\
  (forall k ds r w, In (k, ds) (fst st) -> In r ds -> In w variables -> refId w = r ->
     In w (snd st) \/ initDone (fst st) w).

(** An init-time table: [_k = INITIAL(5)] is a constant with an init value
    (a seed that references nothing), next to the clock. *)
Definition kConst : Variable_ := mkVariable "_k" [] "_k" Const true [] [].
Definition timeVar : Variable_ := mkVariable "_time" [] "_time" Untyped false [] [].
Definition initConstTable : list Variable_ := [kConst; timeVar].

(** A level [_s = INTEG(_f, _i)] with [_i = _c * 2] and an auxiliary flow. *)
Definition sLevel : Variable_ := mkVariable "_s" [] "_s" Level true ["_f"] ["_i"].
Definition iAux : Variable_ := mkVariable "_i" [] "_i" Aux false ["_j"] [].
Definition jAux : Variable_ := mkVariable "_j" [] "_j" Aux false [] [].
Definition fAux : Variable_ := mkVariable "_f" [] "_f" Aux false ["_s"] [].
Definition initTable : list Variable_ := [sLevel; iAux; jAux; fAux; kConst; timeVar].

(** ** [readSubscriptRanges]: dimension expansion

    The dimension objects of the registry ([allDimensions()]) are updated in
    place, so a dimension later in the pass sees the new values of the
    earlier ones.  Indices are not defined yet: [sub] finds dimensions only. *)

Definition dimRegistry (dims : list Dimension) : Registry := mkRegistry dims [].

(** [R.flatten(R.map(s => isDimension(s) ? sub(s).value : s, dim.value))] *)
Definition expandValue (dims : list Dimension) (vals : list string) : list string :=
  List.concat (map (fun s => match sub (dimRegistry dims) s with
                             | Some (SubDim d) => value d
                             | _ => [s]
                             end) vals).

Definition withValue (d : Dimension) (v : list string) : Dimension :=
  mkDimension (name d) v (List.length v) (family d) (mappings d).

(** One [for (let dim of allDims)] pass; [done] holds the dimensions already
    visited (updated), [found] is [dimFoundInValue]. *)
Fixpoint expandPass (done todo : list Dimension) (found : bool) : list Dimension * bool :=
  match todo with
  | [] => (done, found)
  | dim :: rest =>
      let v := expandValue (done ++ dim :: rest) (value dim) in
      if list_eq_dec string_dec v (value dim) then expandPass (done ++ [dim]) rest found
      else expandPass (done ++ [withValue dim v]) rest true
  end.

(** The [do { ... } while (dimFoundInValue)] loop; [None] when it has not
    stopped within [fuel] passes. *)
Fixpoint expandDims (fuel : nat) (dims : list Dimension) : option (list Dimension) :=
  match fuel with
  | O => None
  | S fuel' =>
      let '(dims', found) := expandPass [] dims false in
      if found then expandDims fuel' dims' else Some dims'
  end.

(** Every dimension name in the value of a dimension [D] ranks at least
    [k] below [D]. *)
Definition rankedBy (rk : string -> nat) (k : nat) (dims : list Dimension) : Prop :=
  forall D s, In D dims -> In s (value D) -> In s (map name dims) -> rk s + k < rk (name D).

(** Two dimensions declared from each other: [DimA: DimB], [DimB: DimA]. *)
Definition cycDims : list Dimension :=
  [mkDimension "_dima" ["_dimb"] 1 "_dima" []; mkDimension "_dimb" ["_dima"] 1 "_dimb" []].

(** [DimC: DimA, c3] with [DimA: a1, a2]: an acyclic declaration, ranked
    by [acyRank]. *)
Definition acyDims : list Dimension :=
  [mkDimension "_dimc" ["_dima"; "_c3"] 2 "_dimc" [];
   mkDimension "_dima" ["_a1"; "_a2"] 2 "_dima" []].

Definition acyRank (s : string) : nat := if String.eqb s "_dimc" then 1 else 0.

(** ** [readSubscriptRanges]: dimension families *)

(** [dimComparator]: size ascending, then name descending (JS [<] and [>]
    on strings compare code units). *)
Definition dimComparator (dim1 dim2 : Dimension) : comparison :=
  if Nat.ltb (size dim1) (size dim2) then Lt
  else if Nat.ltb (size dim2) (size dim1) then Gt
  else if String.ltb (name dim2) (name dim1) then Lt
  else if String.ltb (name dim1) (name dim2) then Gt
  else Eq.

(** [R.sort(cmp, l)]: a stable sort placing [a] before [b] when
    [cmp(a, b) <= 0]. *)
Definition dimLe (dim1 dim2 : Dimension) : bool :=
  match dimComparator dim1 dim2 with Gt => false | _ => true end.

(** [R.last] *)
Fixpoint last_opt {A} (l : list A) : option A :=
  match l with
  | [] => None
  | [x] => Some x
  | _ :: r => last_opt r
  end.

(** [dimensionFamilies && dimensionFamilies[dim.name]]: the spec's entry for
    a dimension when it is truthy (a nonempty string).  The spec object is
    an association list without repeated keys; [None] when it is absent. *)
Definition specFamily (dimensionFamilies : option (list (string * string))) (n : string)
    : option string :=
  match dimensionFamilies with
  | None => None
  | Some fams =>
      match find (fun e => String.eqb (fst e) n) fams with
      | Some (_, f) => if String.eqb f "" then None else Some f
      | None => None
      end
  end.

Definition withFamily (d : Dimension) (f : string) : Dimension :=
  mkDimension (name d) (value d) (size d) f (mappings d).

(** The body of the family loop for one dimension.  [R.contains(undefined,
    value)] is false, so a dimension with an empty value finds no family and
    keeps its own name (after a console message). *)
Definition resolveFamily (dimensionFamilies : option (list (string * string)))
    (allDims : list Dimension) (dim : Dimension) : Dimension :=
  match specFamily dimensionFamilies (name dim) with
  | Some f => withFamily dim f
  | None =>
      let index := hd_error (value dim) in
      let familyDims :=
        sort_by dimLe (filter (fun thisDim =>
          match index with
          | Some i => existsb (String.eqb i) (value thisDim)
          | None => false
          end) allDims) in
      match last_opt familyDims with
      | Some d => withFamily dim (name d)
      | None => dim
      end
  end.

(** The loop [for (let dim of allDims)] sets only [family], which the
    filter does not read: it maps [resolveFamily] over the dimensions. *)
Definition resolveFamilies (dimensionFamilies : option (list (string * string)))
    (allDims : list Dimension) : list Dimension :=
  map (resolveFamily dimensionFamilies allDims) allDims.

(** [DimA: a1, a2] and [DimB: a1, a2], no spec families. *)
Definition tieDims : list Dimension :=
  [mkDimension "_dima" ["_a1"; "_a2"] 2 "_dima" [];
   mkDimension "_dimb" ["_a1"; "_a2"] 2 "_dimb" []].

(** ** [readSubscriptRanges]: mapping inversion *)

(** The exceptions the inversion can throw.  [ReferenceError]: the error
    message of [setMappingValue] names [toSubName], which is not in its scope
    (it is declared in the loop body, after the closure).  [TypeError]: a
    property read on [undefined] (an unknown subscript name). *)
Inductive JsError := ReferenceError (ident : string) | TypeError.

Definition bindR {A B} (m : A + JsError) (k : A -> B + JsError) : B + JsError :=
  match m with inl a => k a | inr e => inr e end.

Notation "x <-! m ;; k" := (bindR m (fun x => k))
  (at level 61, m at next level, right associativity).

(** [arr.indexOf(x)] *)
Fixpoint indexOf (x : string) (l : list string) : Z :=
  match l with
  | [] => (-1)%Z
  | y :: r => if String.eqb y x then 0%Z
              else if Z.ltb (indexOf x r) 0 then (-1)%Z else (indexOf x r + 1)%Z
  end.

(** [toDim.value] and [toDim.size]; reading [value.indexOf] of anything
    but a dimension throws. *)
Definition toDimFields (toDim : option Subscript) : (list string * nat) + JsError :=
  match toDim with Some (SubDim d) => inl (value d, size d) | _ => inr TypeError end.

(** [let toIndNumber = toDim.value.indexOf(toIndName); setMappingValue(toIndNumber,
    fromIndName)] *)
Definition setMapped (toDim : option Subscript) (toIndName fromIndName : string)
    (inv : list (option string)) : list (option string) + JsError :=
  tv <-! toDimFields toDim ;;
  let n := indexOf toIndName (fst tv) in
  if (Z.leb 0 n && Z.ltb n (Z.of_nat (snd tv)))%bool
  then inl (set_at (Z.to_nat n) fromIndName inv)
  else inr (ReferenceError "toSubName").

(** [for (let toIndName of toSub.value) ...] *)
Fixpoint setMappedAll (toDim : option Subscript) (toIndNames : list string)
    (fromIndName : string) (inv : list (option string)) : list (option string) + JsError :=
  match toIndNames with
  | [] => inl inv
  | t :: r => inv' <-! setMapped toDim t fromIndName inv ;; setMappedAll toDim r fromIndName inv'
  end.

(** [mappingValue[i]] ([undefined] past the end). *)
Definition toSubNameAt (mappingValue : list (option string)) (i : nat) : option string :=
  match nth_error mappingValue i with Some (Some s) => Some s | _ => None end.

(** One iteration of the loop over [fromDim.value]: [isDimension(toSubName)]
    holds exactly when [sub(toSubName)] is a dimension; otherwise
    [toSub.name] is read, which throws when [toSub] is [undefined]. *)
Definition mapEntry (reg : Registry) (toDim : option Subscript) (fromIndName : string)
    (toSubName : option string) (inv : list (option string)) : list (option string) + JsError :=
  match match toSubName with Some s => sub reg s | None => None end with
  | Some (SubDim toSub) => setMappedAll toDim (value toSub) fromIndName inv
  | Some (SubIdx toSub) => setMapped toDim (iname toSub) fromIndName inv
  | None => inr TypeError
  end.

Fixpoint invertFrom (reg : Registry) (toDim : option Subscript) (fromVals : list string)
    (i : nat) (mappingValue : list (option string)) (inv : list (option string))
    : list (option string) + JsError :=
  match fromVals with
  | [] => inl inv
  | f :: r =>
      inv' <-! mapEntry reg toDim f (toSubNameAt mappingValue i) inv ;;
      invertFrom reg toDim r (S i) mappingValue inv'
  end.

(** The inversion of [fromDim.mappings[toDimName]]. *)
Definition invertMapping (reg : Registry) (fromDim : Dimension) (toDimName : string)
    (mappingValue : list (option string)) : list (option string) + JsError :=
  match mappingValue with
  | [] => inl (map Some (value fromDim))
  | _ => invertFrom reg (sub reg toDimName) (value fromDim) 0 mappingValue []
  end.

Fixpoint traverseR {A B} (f : A -> B + JsError) (l : list A) : list B + JsError :=
  match l with
  | [] => inl []
  | x :: r => y <-! f x ;; ys <-! traverseR f r ;; inl (y :: ys)
  end.

(** The loops [for (let fromDim of allDims) for (let toDimName in
    fromDim.mappings)]: each stored mapping is replaced by its inversion,
    which reads only dimension and index values. *)
Definition invertMappings (reg : Registry) (allDims : list Dimension)
    : list Dimension + JsError :=
  traverseR (fun d =>
    ms <-! traverseR (fun e => inv <-! invertMapping reg d (fst e) (snd e) ;; inl (fst e, inv))
                     (mappings d) ;;
    inl (mkDimension (name d) (value d) (size d) (family d) ms)) allDims.

(** The toDim positions (as [indexOf] results) written for a map-to
    subscript [s]. *)
Definition mapTargets (reg : Registry) (toVals : list string) (s : string) : list Z :=
  match sub reg s with
  | Some (SubDim e) => map (fun t => indexOf t toVals) (value e)
  | Some (SubIdx ix) => [indexOf (iname ix) toVals]
  | None => []
  end.

(** Entry [j] of the mapping value maps its fromDim index onto toDim
    position [k]. *)
Definition mapHits (reg : Registry) (toVals : list string)
    (mappingValue : list (option string)) (j k : nat) : Prop :=
  exists s, toSubNameAt mappingValue j = Some s /\ In (Z.of_nat k) (mapTargets reg toVals s).

(** [DimA: a1, a2 -> DimB] with [DimB: b1, b2] and [DimC: c1]; the mapping
    value names [b1] and [c1], an index outside [DimB]. *)
Definition mapRegistry : Registry :=
  mkRegistry
    [mkDimension "_dima" ["_a1"; "_a2"] 2 "_dima" [("_dimb", [Some "_b1"; Some "_c1"])];
     mkDimension "_dimb" ["_b1"; "_b2"] 2 "_dimb" [];
     mkDimension "_dimc" ["_c1"] 1 "_dimc" []]
    [mkIndex "_a1" 0 "_dima"; mkIndex "_a2" 1 "_dima"; mkIndex "_b1" 0 "_dimb";
     mkIndex "_b2" 1 "_dimb"; mkIndex "_c1" 0 "_dimc"].

(** The positions [0 <= n < sz] of a dimension of size [sz]. *)
Definition inRange (sz : nat) (n : Z) : Prop := (0 <= n < Z.of_nat sz)%Z.

(** [DimA: a1, a2 -> DimB: b2, b1], a mapping within [DimB]. *)
Definition mapRegistryOk : Registry :=
  mkRegistry
    [mkDimension "_dima" ["_a1"; "_a2"] 2 "_dima" [("_dimb", [Some "_b2"; Some "_b1"])];
     mkDimension "_dimb" ["_b1"; "_b2"] 2 "_dimb" []]
    [mkIndex "_a1" 0 "_dima"; mkIndex "_a2" 1 "_dima"; mkIndex "_b1" 0 "_dimb";
     mkIndex "_b2" 1 "_dimb"].

(** ** sde-generate.js: [parseJsonFile] and [parseSpec] *)

(** JSON values as [JSON.parse] returns them; an object is its list of
    fields in order. *)
#[warnings="-register-all"]
Inductive Json :=
| JNull
| JBool (b : bool)
| JNum (n : Z)
| JStr (s : string)
| JArr (xs : list Json)
| JObj (fields : list (string * Json)).

(** [B.read(filename)] (bufx): the file's contents, [None] where it throws
    (no such file, unreadable). *)
Definition FileSystem := string -> option string.

(** [JSON.parse(text)]: the value, [None] where it throws a SyntaxError. *)
Definition JsonParser := string -> option Json.

(** [parseJsonFile(filename)]: [result] starts as [{}] and is replaced by the
    parsed value only when both the read and the parse succeed; the [catch]
    block is empty. *)
Definition parseJsonFile (fs : FileSystem) (parse : JsonParser) (filename : string) : Json :=
  let result := JObj [] in
  match fs filename with
  | Some json =>
      match parse json with
      | Some r => r
      | None => result
      end
  | None => result
  end.

Fixpoint assocGet (k : string) (fs : list (string * Json)) : option Json :=
  match fs with
  | [] => None
  | (k', v) :: r => if String.eqb k' k then Some v else assocGet k r
  end.

(** [obj[k] = v]: an existing key keeps its position, a new key goes last. *)
Fixpoint assocSet (k : string) (v : Json) (fs : list (string * Json)) : list (string * Json) :=
  match fs with
  | [] => [(k, v)]
  | (k', v') :: r => if String.eqb k' k then (k', v) :: r else (k', v') :: assocSet k v r
  end.

(** [v.k]: reading a property of [null] throws; a primitive or an array has
    no property named like a spec field. *)
Definition getProp (v : Json) (k : string) : option Json + JsError :=
  match v with
  | JNull => inr TypeError
  | JObj fs => inl (assocGet k fs)
  | _ => inl None
  end.

(** [v.k = x] on the object [v]. *)
Definition setProp (v : Json) (k : string) (x : Json) : Json :=
  match v with
  | JObj fs => JObj (assocSet k x fs)
  | _ => v
  end.

Definition truthy (v : Json) : bool :=
  match v with
  | JNull => false
  | JBool b => b
  | JNum n => negb (Z.eqb n 0)
  | JStr s => negb (String.eqb s "")
  | JArr _ | JObj _ => true
  end.

(** Decimal digits of [n], for array and string keys. *)
Fixpoint natDigits (fuel n : nat) (acc : string) : string :=
  match fuel with
  | 0 => acc
  | S f =>
      let acc' := String (ascii_of_nat (48 + n mod 10)) acc in
      if Nat.ltb n 10 then acc' else natDigits f (n / 10) acc'
  end.

Definition natToString (n : nat) : string := natDigits (S n) n "".

Fixpoint indexed {A} (i : nat) (l : list A) : list (string * A) :=
  match l with
  | [] => []
  | x :: r => (natToString i, x) :: indexed (S i) r
  end.

(** The keys and values a [for (k in v)] loop visits, in field order. *)
Definition forInEntries (v : Json) : list (string * Json) :=
  match v with
  | JObj fs => fs
  | JArr xs => indexed 0 xs
  | JStr s => indexed 0 (map (fun c => JStr (String c EmptyString)) (list_ascii_of_string s))
  | _ => []
  end.

(** [parseSpec(specFilename)]; [canonicalName] (Helpers.js) is a parameter
    [canon] that may throw on its argument. *)
Definition parseSpec (fs : FileSystem) (parse : JsonParser) (canon : Json -> string + JsError)
    (specFilename : string) : Json + JsError :=
  let spec := parseJsonFile fs parse specFilename in
  fams <-! getProp spec "dimensionFamilies" ;;
  match fams with
  | Some fv =>
      if truthy fv then
        f <-! fold_left (fun acc e =>
                 acc' <-! acc ;;
                 k <-! canon (JStr (fst e)) ;;
                 v <-! canon (snd e) ;;
                 inl (assocSet k (JStr v) acc'))
               (forInEntries fv) (inl []) ;;
        inl (setProp spec "dimensionFamilies" (JObj f))
      else inl spec
  | None => inl spec
  end.

(** A file system holding the spec file [spec.json] with the text [{]. *)
Definition brokenSpecFs : FileSystem :=
  fun filename => if String.eqb filename "spec.json" then Some "{" else None.

(** [JSON.parse] on the texts used here: [{}] parses, anything else (such
    as [{]) throws. *)
Definition smallJsonParse : JsonParser :=
  fun s => if String.eqb s "{}" then Some (JObj []) else None.

(** A stand-in for [canonicalName] on strings. *)
Definition prefixName (v : Json) : string + JsError :=
  match v with JStr s => inl ("_" ++ s)%string | _ => inr TypeError end.

(** ** Model API and diagnostics of Model.js *)

(** [expansionFlags(varName)]: [nonAtoANames[varName]], [undefined] for a
    name that is not non-apply-to-all. *)
Definition expansionFlags (nonAtoANames : NonAtoAMap) (n : string) : option (list bool) :=
  option_map snd (find (fun p => String.eqb (fst p) n) nonAtoANames).

(** A [vlog(title, value)] line on the error stream. *)
Definition LogLine := (string * string)%type.

(** The checks of the first [R.forEach] of [printRefIdTest] on one record:
    the lines it logs, and whether it goes on to call [printVars], which
    Model.js neither defines nor imports. *)
Definition refIdCountCheck (nonAtoANames : NonAtoAMap) (variables : list Variable_)
    (v : Variable_) : list LogLine * bool :=
  let varName' := varName v in
  let vars := varsWithName varName' variables in
  if hasSubscripts v then
    if isNonAtoAName nonAtoANames varName' then
      if Nat.ltb (List.length vars) 2
      then ([("ERROR: only one instance of non-apply-to-all array", varName')], false)
      else ([], false)
    else if Nat.ltb 1 (List.length vars)
      then ([("ERROR: more than one instance of apply-to-all array", varName')], true)
      else ([], false)
  else if Nat.ltb 1 (List.length vars)
    then ([("ERROR: more than one instance of scalar var", varName')], true)
    else ([], false).

(** The first [R.forEach]; a call of the undefined [printVars] throws a
    ReferenceError, which ends [printRefIdTest]. *)
Fixpoint refIdCountChecks (nonAtoANames : NonAtoAMap) (variables todo : list Variable_)
    : list LogLine * option JsError :=
  match todo with
  | [] => ([], None)
  | v :: rest =>
      let '(msgs, callsPrintVars) := refIdCountCheck nonAtoANames variables v in
      if callsPrintVars then (msgs, Some (ReferenceError "printVars"))
      else let '(msgs', e) := refIdCountChecks nonAtoANames variables rest in
           (msgs ++ msgs', e)
  end.

(** [checkRefVar(refId)] *)
Definition checkRefVar (variables : list Variable_) (r : string) : list LogLine :=
  match find (fun v => String.eqb (refId v) r) variables with
  | Some _ => []
  | None => [("ERROR: no var for refId", r)]
  end.

(** [printRefIdTest()]: the lines logged, and the exception thrown if any. *)
Definition printRefIdTest (nonAtoANames : NonAtoAMap) (variables : list Variable_)
    : list LogLine * option JsError :=
  let '(msgs, e) := refIdCountChecks nonAtoANames variables variables in
  match e with
  | Some _ => (msgs, e)
  | None =>
      (msgs ++ List.concat (map (fun v => flat_map (checkRefVar variables) (references v) ++
                                          flat_map (checkRefVar variables) (initReferences v))
                                variables), None)
  end.

(** The refIds of a table's references and init references that no record
    has as its refId, in the order the table lists them. *)
Definition danglingRefIds (variables : list Variable_) : list string :=
  filter (fun r => match findByRefId variables r with Some _ => false | None => true end)
    (flat_map (fun v => references v ++ initReferences v) variables).

(** The line [varWithRefId(refId)] logs: [vlog('ERROR: no var found for
    refId', refId)] runs when the direct lookup failed and the search by
    varName found no record either, i.e. exactly when it returns
    [undefined]. *)
Definition varWithRefIdLog (reg : Registry) (variables : list Variable_) (r : string)
    : list LogLine :=
  match varWithRefId reg variables r with
  | Some _ => []
  | None => [("ERROR: no var found for refId", r)]
  end.

(** The lines logged by the [refIsConst] calls of [removeConstRefs], record
    by record ([references], then [initReferences]), against the table as
    it is updated in place (as in [removeConstRefsFrom]). *)
Fixpoint removeConstRefsLogFrom (reg : Registry) (done todo : list Variable_) : list LogLine :=
  match todo with
  | [] => []
  | v :: rest =>
      let tbl := done ++ v :: rest in
      let refIsConst' := refIsConst reg tbl in
      let v' := withRefs v (filter (fun r => negb (refIsConst' r)) (references v))
                           (filter (fun r => negb (refIsConst' r)) (initReferences v)) in
      flat_map (varWithRefIdLog reg tbl) (references v) ++
      flat_map (varWithRefIdLog reg tbl) (initReferences v) ++
      removeConstRefsLogFrom reg (done ++ [v']) rest
  end.

Definition removeConstRefsLog (reg : Registry) (variables : list Variable_) : list LogLine :=
  removeConstRefsLogFrom reg [] variables.

(** [b] is reachable from [a] along one or more edges of [g]. *)
Inductive reaches (g : Graph) : string -> string -> Prop :=
| reaches_one a b : In (a, b) g -> reaches g a b
| reaches_step a b c : In (a, b) g -> reaches g b c -> reaches g a c.

(** ** Sample inputs *)

(** Two records of [x] subscripted by [a1] and [a2], and [y] referring to
    the first, before their refIds are set. *)
Definition subVars : list Variable_ :=
  [mkVariable "_x" ["_a1"] "" Aux false [] [];
   mkVariable "_x" ["_a2"] "" Aux false [] [];
   mkVariable "_y" [] "" Aux false ["_x[_a1]"] []].

Definition xA1 : Variable_ := mkVariable "_x" ["_a1"] "_x[_a1]" Aux false [] [].

(** [x[a1, b2]], subscripts in family order under [mapRegistryOk]. *)
Definition xAB : Variable_ := mkVariable "_x" ["_a1"; "_b2"] "" Aux false [] [].

(** [_dimb], the second dimension of [tieDims]. *)
Definition dimB : Dimension := mkDimension "_dimb" ["_a1"; "_a2"] 2 "_dimb" [].

(** A subscripted record of [a], then two scalar records each of [z] and
    [x], interleaved. *)
Definition dupScalars : list Variable_ :=
  [mkVariable "_a" ["_a1"] "" Aux false [] [];
   mkVariable "_z" [] "" Aux false [] [];
   mkVariable "_x" [] "" Aux false [] [];
   mkVariable "_x" [] "" Const true [] [];
   mkVariable "_z" [] "" Aux false [] []].

(** A file system holding [spec.json] with the text [spec]. *)
Definition specFs : FileSystem :=
  fun filename => if String.eqb filename "spec.json" then Some "spec" else None.

(** A spec with two dimension families. *)
Definition sampleFamilies : list (string * Json) := [("DimA", JStr "DimB"); ("DimC", JStr "DimB")].

Definition sampleSpecFields : list (string * Json) :=
  [("inputVars", JArr []); ("dimensionFamilies", JObj sampleFamilies)].

(** [JSON.parse] of [spec]. *)
Definition familiesParse : JsonParser :=
  fun s => if String.eqb s "spec" then Some (JObj sampleSpecFields) else None.

(** The strings [prefixName] gives. *)
Definition prefixNameStr (v : Json) : string :=
  match v with JStr s => ("_" ++ s)%string | _ => EmptyString end.

(** The dimensions [_dima] and [_dimb] of [mapRegistryOk]. *)
Definition dimAOk : Dimension :=
  mkDimension "_dima" ["_a1"; "_a2"] 2 "_dima" [("_dimb", [Some "_b2"; Some "_b1"])].

Definition dimBOk : Dimension := mkDimension "_dimb" ["_b1"; "_b2"] 2 "_dimb" [].

(** An aux record referring to itself. *)
Definition selfRefVars : list Variable_ := [mkVariable "_z" [] "_z" Aux false ["_z"] []].

(* ================================================================= *)
(** * Proofs *)

Section GenericFacts.
  Context {A : Type}.

Lemma in_uniq_from dec (seen l : list A) y :
    In y (uniq_from dec seen l) <-> In y l /\ ~ In y seen.
  Proof.
    revert seen; induction l as [|x r IH]; intros seen; simpl.
    - tauto.
    - destruct (in_dec dec x seen) as [Hx|Hx].
      + rewrite IH. split; [tauto|].
        intros [[<-|Hr] Hn]; [contradiction|tauto].
      + simpl. rewrite IH. simpl.
        destruct (dec x y) as [<-|Hne]; [tauto|].
        split; [intros [H|[H1 H2]]; [congruence|tauto]|].
        intros [[H|H] Hn]; [congruence|right; split; [exact H|]].
        intros [H'|H']; [congruence|contradiction].
  Qed.

Lemma in_uniq dec (l : list A) y : In y (uniq dec l) <-> In y l.
  Proof. unfold uniq. rewrite in_uniq_from. simpl. tauto. Qed.

Lemma insert_by_perm le (x : A) l : Permutation (insert_by le x l) (x :: l).
  Proof.
    induction l as [|y l IH]; simpl; [reflexivity|].
    destruct (le x y); [reflexivity|].
    rewrite IH. apply perm_swap.
  Qed.

Lemma sort_by_perm le (l : list A) : Permutation (sort_by le l) l.
  Proof.
    induction l as [|x l IH]; simpl; [reflexivity|].
    rewrite insert_by_perm. now apply perm_skip.
  Qed.
End GenericFacts.

Lemma in_varNames variables n :
  In n (varNames variables) <-> In n (map varName variables).
Proof.
  unfold varNames. split; intros H.
  - apply (Permutation_in _ (sort_by_perm _ _)) in H. now apply in_uniq in H.
  - apply (Permutation_in _ (Permutation_sym (sort_by_perm str_le _))).
    now apply in_uniq.
Qed.

Lemma isNonAtoAName_assoc_set k x m n :
  isNonAtoAName (assoc_set k x m) n = String.eqb k n || isNonAtoAName m n.
Proof.
  induction m as [|[k' y] r IH]; simpl; [now rewrite orb_false_r|].
  destruct (String.eqb_spec k' k) as [->|Hne]; simpl.
  - destruct (String.eqb k n); reflexivity.
  - rewrite IH. destruct (String.eqb k' n), (String.eqb k n); reflexivity.
Qed.

Lemma isNonAtoAName_fold variables names acc n :
  isNonAtoAName
    (fold_left
       (fun acc name =>
          let vars := varsWithName name variables in
          if Nat.ltb 1 (List.length vars) then assoc_set name (expansionDimsOf vars) acc
          else acc) names acc) n = true
  <-> isNonAtoAName acc n = true
      \/ (In n names /\ (1 < List.length (varsWithName n variables))%nat).
Proof.
  revert acc; induction names as [|m names IH]; intros acc; simpl.
  - tauto.
  - rewrite IH.
    destruct (Nat.ltb_spec 1 (List.length (varsWithName m variables))) as [Hlt|Hge].
    + rewrite isNonAtoAName_assoc_set, orb_true_iff, String.eqb_eq.
      split.
      * intros [[->|H]|[H1 H2]]; auto.
      * intros [H|[[->|H1] H2]]; auto.
    + split.
      * intros [H|[H1 H2]]; auto.
      * intros [H|[[->|H1] H2]]; auto. lia.
Qed.

(** The non-apply-to-all registry built from an empty one holds exactly the
    var names shared by more than one record. *)
Lemma isNonAtoAName_findNonAtoAVars variables n :
  isNonAtoAName (findNonAtoAVars variables []) n = true
  <-> (1 < List.length (varsWithName n variables))%nat.
Proof.
  unfold findNonAtoAVars. rewrite isNonAtoAName_fold. simpl.
  split; [intros [H|[_ H]]; [discriminate|exact H]|].
  intros H. right. split; [|exact H].
  apply in_varNames.
  destruct (varsWithName n variables) as [|w ws] eqn:Hw; [simpl in H; lia|].
  assert (Hin : In w (varsWithName n variables)) by (rewrite Hw; left; reflexivity).
  unfold varsWithName in Hin. apply filter_In in Hin as [Hin Heq].
  apply String.eqb_eq in Heq. subst n. now apply in_map.
Qed.

Lemma varsWithName_setRefIds nonAtoANames variables n :
  List.length (varsWithName n (setRefIds nonAtoANames variables))
  = List.length (varsWithName n variables).
Proof.
  induction variables as [|v vs IH]; simpl; [reflexivity|].
  destruct (String.eqb (varName v) n); simpl; now rewrite IH.
Qed.

(** C1: after reference-identifier assignment, a subscripted record whose
    varName is shared by several records has the refId
    [varName[s1,...,sn]]; a record whose varName has a single record has the
    bare varName as refId, even when subscripted. *)
Theorem assignRefIds_refId variables v :
  In v (snd (assignRefIds variables)) ->
  (hasSubscripts v = true ->
   (1 < List.length (varsWithName (varName v) (snd (assignRefIds variables))))%nat ->
   refId v = String.append (varName v)
               (String.append "[" (String.append (join "," (subscripts v)) "]"))) /\
  (List.length (varsWithName (varName v) (snd (assignRefIds variables))) = 1 ->
   refId v = varName v).
Proof.
  unfold assignRefIds; simpl. rewrite varsWithName_setRefIds.
  unfold setRefIds. intros Hin. apply in_map_iff in Hin as [w [<- Hw]].
  simpl. unfold refIdForVar. split.
  - intros Hs Hlt. change (hasSubscripts w = true) in Hs. rewrite Hs.
    apply isNonAtoAName_findNonAtoAVars in Hlt. now rewrite Hlt.
  - intros H1.
    destruct (isNonAtoAName (findNonAtoAVars variables []) (varName w)) eqn:Hn.
    + apply isNonAtoAName_findNonAtoAVars in Hn. lia.
    + now rewrite andb_false_r.
Qed.

(** ** Lexing refIds *)

Lemma append_empty_r (s : string) : String.append s "" = s.
Proof. induction s; simpl; congruence. Qed.

Lemma append_assoc_str (a b c : string) :
  String.append (String.append a b) c = String.append a (String.append b c).
Proof. induction a; simpl; congruence. Qed.

Lemma lexRefId_word w acc s :
  all_word_chars w = true ->
  lexRefId acc (String.append w s) = lexRefId (String.append acc w) s.
Proof.
  revert acc; induction w as [|c w IH]; intros acc Hw; simpl.
  - now rewrite append_empty_r.
  - simpl in Hw. apply andb_true_iff in Hw as [Hc Hw]. rewrite Hc.
    rewrite IH by exact Hw. now rewrite append_assoc_str.
Qed.

Lemma lexRefId_word_then w c s :
  word w -> is_word_char c = false ->
  lexRefId "" (String.append w (String c s))
  = w :: (if Ascii.eqb c "[" then ["["] else []) ++ lexRefId "" s.
Proof.
  intros [Hne Hw] Hc. rewrite lexRefId_word by exact Hw. simpl. rewrite Hc.
  destruct w; [congruence|reflexivity].
Qed.

Lemma lexRefId_join_close subs :
  subs <> [] -> Forall word subs ->
  lexRefId "" (String.append (join "," subs) "]") = subs.
Proof.
  induction subs as [|x r IH]; intros Hne Hall; [congruence|].
  inversion Hall as [|? ? Hx Hr]; subst.
  destruct r as [|y r].
  - simpl. rewrite (lexRefId_word_then x "]" "") by (auto; reflexivity).
    reflexivity.
  - change (join "," (x :: y :: r))
      with (String.append x (String.append "," (join "," (y :: r)))).
    rewrite append_assoc_str. simpl.
    rewrite (lexRefId_word_then x "," _) by (auto; reflexivity). simpl.
    f_equal. apply IH; [discriminate|exact Hr].
Qed.

Lemma splitMatches_subs n acc l :
  Forall word l -> Forall (fun m => m <> "[") l ->
  splitMatches true n acc l = (n, acc ++ l).
Proof.
  revert acc; induction l as [|m l IH]; intros acc Hw Hb; simpl.
  - now rewrite app_nil_r.
  - inversion Hb; inversion Hw; subst.
    destruct (String.eqb_spec m "["); [contradiction|].
    rewrite IH by assumption. now rewrite <- app_assoc.
Qed.

Lemma word_not_bracket w : word w -> w <> "[".
Proof. intros [_ Hw] ->. discriminate. Qed.

Lemma normalizeSubscripts_sorted reg subs :
  normalOrder reg subs -> normalizeSubscripts reg subs = subs.
Proof.
  unfold normalOrder, normalizeSubscripts. induction 1 as [|x l Hl IH Hhd]; [reflexivity|].
  simpl. rewrite IH. inversion Hhd as [|y l' Hxy]; subst; simpl; [reflexivity|].
  now rewrite Hxy.
Qed.

Lemma splitRefId_bare reg n : word n -> splitRefId reg n = (n, []).
Proof.
  intros Hn. pose proof (word_not_bracket _ Hn) as Hb. destruct Hn as [Hne Hw].
  unfold splitRefId. rewrite <- (append_empty_r n).
  rewrite lexRefId_word by exact Hw. cbn -[String.eqb]. rewrite append_empty_r.
  destruct n as [|c r]; [congruence|]. cbn -[String.eqb].
  destruct (String.eqb_spec (String c r) "[") as [E|_]; [contradiction|reflexivity].
Qed.

(** C10: for a record whose varName and subscripts are word names and
    whose subscripts are in normal order, splitting the refId built by
    [refIdForVar] gives back the varName, with the record's subscripts when
    the varName is non-apply-to-all and with no subscripts otherwise. *)
Theorem splitRefId_refIdForVar reg nonAtoANames v :
  word (varName v) -> Forall word (subscripts v) -> normalOrder reg (subscripts v) ->
  splitRefId reg (refIdForVar nonAtoANames v)
  = (varName v,
     if isNonAtoAName nonAtoANames (varName v) then subscripts v else []).
Proof.
  intros Hn Hs Hsorted. unfold refIdForVar.
  destruct (isNonAtoAName nonAtoANames (varName v)) eqn:Hna.
  2: { rewrite andb_false_r. now apply splitRefId_bare. }
  rewrite andb_true_r. unfold hasSubscripts.
  destruct (subscripts v) as [|s0 ss] eqn:Hsub.
  { now apply splitRefId_bare. }
  rewrite <- Hsub. unfold splitRefId. cbn [String.append].
  rewrite (lexRefId_word_then (varName v) "[" _) by (auto; reflexivity).
  rewrite Ascii.eqb_refl.
  rewrite lexRefId_join_close by (rewrite Hsub; discriminate || exact Hs).
  cbn [app splitMatches].
  destruct (String.eqb_spec (varName v) "[") as [E|_];
    [exfalso; exact (word_not_bracket _ Hn E)|].
  rewrite String.eqb_refl.
  rewrite Hsub in *.
  rewrite splitMatches_subs.
  - cbn [app]. f_equal. now apply normalizeSubscripts_sorted.
  - exact Hs.
  - eapply Forall_impl; [|exact Hs]. intros a Ha. now apply word_not_bracket.
Qed.

(** ** Resolution reads only [refId], [varName] and [varType] *)

Lemma findByRefId_key t1 t2 r :
  map varKey t1 = map varKey t2 ->
  option_map varKey (findByRefId t1 r) = option_map varKey (findByRefId t2 r).
Proof.
  revert t2; induction t1 as [|a t1 IH]; intros [|b t2] H; try discriminate; [reflexivity|].
  simpl in H. unfold varKey in H. injection H as H1 H2 H3 Ht.
  unfold findByRefId; simpl. rewrite H1.
  destruct (String.eqb (refId b) r); simpl.
  - unfold varKey. now rewrite H1, H2, H3.
  - now apply IH.
Qed.

Lemma refIdsWithName_key t1 t2 n :
  map varKey t1 = map varKey t2 -> refIdsWithName n t1 = refIdsWithName n t2.
Proof.
  revert t2; induction t1 as [|a t1 IH]; intros [|b t2] H; try discriminate; [reflexivity|].
  simpl in H. unfold varKey in H. injection H as H1 H2 H3 Ht.
  unfold refIdsWithName, varsWithName in *; simpl. rewrite H2.
  destruct (String.eqb (varName b) n); simpl; rewrite (IH _ Ht); [now rewrite H1|reflexivity].
Qed.

Lemma varWithRefId_key reg t1 t2 r :
  map varKey t1 = map varKey t2 ->
  option_map varKey (varWithRefId reg t1 r) = option_map varKey (varWithRefId reg t2 r).
Proof.
  intros H. unfold varWithRefId.
  pose proof (findByRefId_key t1 t2 r H) as Hf.
  destruct (findByRefId t1 r), (findByRefId t2 r); try discriminate; [exact Hf|].
  destruct (splitRefId reg r) as [n subs].
  rewrite (refIdsWithName_key t1 t2 n H).
  destruct (find _ (refIdsWithName n t2)); [now apply findByRefId_key|reflexivity].
Qed.

Lemma refIsConst_key reg t1 t2 r :
  map varKey t1 = map varKey t2 -> refIsConst reg t1 r = refIsConst reg t2 r.
Proof.
  intros H. pose proof (varWithRefId_key reg t1 t2 r H) as Hv. unfold refIsConst.
  destruct (varWithRefId reg t1 r) as [a|], (varWithRefId reg t2 r) as [b|];
    try discriminate; [|reflexivity].
  simpl in Hv. unfold varKey in Hv. injection Hv as _ _ ->.
  reflexivity.
Qed.

Definition refsPruned (reg : Registry) (tbl : list Variable_) (v : Variable_) : Prop :=
  forall r, In r (references v) \/ In r (initReferences v) -> refIsConst reg tbl r = false.

Lemma removeConstRefsFrom_spec reg tbl0 todo : forall done,
  map varKey (done ++ todo) = map varKey tbl0 ->
  Forall (refsPruned reg tbl0) done ->
  map varKey (removeConstRefsFrom reg done todo) = map varKey tbl0 /\
  Forall (refsPruned reg tbl0) (removeConstRefsFrom reg done todo).
Proof.
  induction todo as [|v rest IH]; intros done Hk Hp; simpl.
  - rewrite app_nil_r in Hk. auto.
  - apply IH.
    + rewrite <- Hk, !map_app, <- app_assoc. reflexivity.
    + apply Forall_app. split; [exact Hp|]. constructor; [|constructor].
      intros r Hr. simpl in Hr.
      rewrite <- (refIsConst_key reg (done ++ v :: rest) tbl0 r Hk).
      destruct Hr as [Hr|Hr]; apply filter_In in Hr as [_ Hr];
        now apply negb_true_iff in Hr.
Qed.

(** C8: after constant-reference pruning, no entry of a record's
    references or initReferences resolves to a record of type const, data
    or lookup. *)
Theorem removeConstRefs_no_const_targets reg variables v r w :
  In v (removeConstRefs reg variables) ->
  In r (references v) \/ In r (initReferences v) ->
  varWithRefId reg (removeConstRefs reg variables) r = Some w ->
  varType w <> Const /\ varType w <> Data /\ varType w <> Lookup.
Proof.
  intros Hin Hr Hw.
  destruct (removeConstRefsFrom_spec reg variables variables [] eq_refl (Forall_nil _))
    as [Hk Hp].
  fold (removeConstRefs reg variables) in Hk, Hp.
  rewrite Forall_forall in Hp. specialize (Hp v Hin r Hr).
  rewrite <- (refIsConst_key reg _ variables r Hk) in Hp.
  unfold refIsConst in Hp. rewrite Hw in Hp.
  destruct (varType w); simpl in Hp; try discriminate; repeat split; discriminate.
Qed.

(** ** Reference resolution *)

Lemma findByRefId_some tbl r w :
  findByRefId tbl r = Some w -> In w tbl /\ refId w = r.
Proof.
  unfold findByRefId. intros H. apply find_some in H as [Hin Heq].
  split; [exact Hin|]. now apply String.eqb_eq.
Qed.

Lemma findByRefId_complete tbl w :
  In w tbl -> findByRefId tbl (refId w) <> None.
Proof.
  unfold findByRefId. intros Hin Hn.
  pose proof (find_none _ _ Hn w Hin) as H. simpl in H.
  now rewrite String.eqb_refl in H.
Qed.

Lemma in_refIdsWithName n tbl x :
  In x (refIdsWithName n tbl) <-> exists w, In w tbl /\ varName w = n /\ refId w = x.
Proof.
  unfold refIdsWithName, varsWithName. rewrite in_map_iff. split.
  - intros [w [<- Hw]]. apply filter_In in Hw as [Hw Hn].
    apply String.eqb_eq in Hn. eauto.
  - intros [w [Hw [Hn <-]]]. exists w. split; [reflexivity|].
    apply filter_In. split; [exact Hw|]. now apply String.eqb_eq.
Qed.

(** C4 (counterexample): a reference to an undefined variable survives
    analysis, [varWithRefId] returns no record for it, and no record binds
    it. *)
Lemma dangling_reference_binds_nothing :
  varWithRefId emptyRegistry danglingTable "_y" = None /\
  ~ (forall v, In v danglingTable ->
       forall r, In r (references v) \/ In r (initReferences v) ->
       exists! w, In w danglingTable /\ bindsTo emptyRegistry r w).
Proof.
  split; [vm_compute; reflexivity|].
  intros H.
  destruct (H (mkVariable "_x" [] "_x" Aux false ["_y"] []) ltac:(vm_compute; left; reflexivity)
              "_y" ltac:(left; left; reflexivity)) as [w [[Hw Hb] _]].
  vm_compute in Hw. destruct Hw as [<-|[]].
  destruct Hb as [Hb|[Hb _]]; vm_compute in Hb; discriminate.
Qed.

(** ** Options, [toposort] *)

Lemma map_option_Forall2 {A B} (f : A -> option B) l out :
  map_option f l = Some out -> Forall2 (fun x y => f x = Some y) l out.
Proof.
  revert out; induction l as [|x l IH]; intros out H; simpl in H.
  - injection H as <-. constructor.
  - destruct (f x) as [y|] eqn:Hf; [|discriminate]. simpl in H.
    destruct (map_option f l) as [ys|] eqn:Hl; [|discriminate]. simpl in H.
    injection H as <-. constructor; auto.
Qed.

Lemma varWithRefId_in reg tbl r w : varWithRefId reg tbl r = Some w -> In w tbl.
Proof.
  unfold varWithRefId. destruct (findByRefId tbl r) as [u|] eqn:Hf.
  - intros [= <-]. now apply findByRefId_some in Hf.
  - destruct (splitRefId reg r) as [n subs].
    destruct (find _ _) as [x|]; [|discriminate].
    intros Hw. now apply findByRefId_some in Hw.
Qed.

Lemma before_rev {A} (a b : A) l : before a b l -> before b a (rev l).
Proof.
  intros [l1 [l2 [-> [Ha Hb]]]]. exists (rev l2), (rev l1).
  rewrite rev_app_distr. split; [reflexivity|]. split; now rewrite <- in_rev.
Qed.

Lemma kahn_spec g fuel : forall rem out,
  kahn fuel g rem = Some out ->
  NoDup out /\ (forall x, In x out <-> In x rem) /\
  (forall a b, In (a, b) g -> In a rem -> In b rem -> before a b out).
Proof.
  induction fuel as [|fuel IH]; intros rem out H.
  - destruct rem; simpl in H; [|discriminate]. injection H as <-.
    split; [constructor|]. split; [tauto|]. intros a b _ [].
  - destruct rem as [|r0 rs] eqn:Hrem.
    { simpl in H. injection H as <-. split; [constructor|]. split; [tauto|].
      intros a b _ []. }
    rewrite <- Hrem in H |- *. simpl in H. rewrite Hrem in H. rewrite <- Hrem in H.
    destruct (find _ rem) as [n|] eqn:Hn; [|discriminate].
    apply find_some in Hn as [Hnin Hninc]. apply negb_true_iff in Hninc.
    destruct (kahn fuel g (remove string_dec n rem)) as [rest|] eqn:Hk; [|discriminate].
    simpl in H. injection H as <-.
    destruct (IH _ _ Hk) as [Hnd [Hin Hbef]].
    split; [|split].
    + constructor; [|exact Hnd]. rewrite Hin. apply remove_In.
    + intros x. simpl. rewrite Hin. split.
      * intros [<-|Hx]; [exact Hnin|]. now apply in_remove in Hx.
      * intros Hx. destruct (string_dec n x) as [->|Hne]; [now left|].
        right. apply in_in_remove; auto.
    + intros a b Hab Ha Hb.
      destruct (string_dec b n) as [->|Hbn].
      { exfalso. unfold hasIncoming in Hninc.
        assert (Hx : existsb (fun e => String.eqb (snd e) n && existsb (String.eqb (fst e)) rem) g = true).
        { apply existsb_exists. exists (a, n). split; [exact Hab|]. simpl.
          rewrite String.eqb_refl. simpl. apply existsb_exists. exists a.
          split; [exact Ha|]. apply String.eqb_refl. }
        congruence. }
      assert (Hb' : In b (remove string_dec n rem)) by (apply in_in_remove; auto).
      destruct (string_dec a n) as [->|Han].
      * exists [n], rest. split; [reflexivity|]. split; [now left|]. now apply Hin.
      * assert (Ha' : In a (remove string_dec n rem)) by (apply in_in_remove; auto).
        destruct (Hbef a b Hab Ha' Hb') as [l1 [l2 [-> [H1 H2]]]].
        exists (n :: l1), l2. split; [reflexivity|]. split; [now right|exact H2].
Qed.

Lemma in_nodesOf g x :
  In x (nodesOf g) <-> exists e, In e g /\ (x = fst e \/ x = snd e).
Proof.
  unfold nodesOf. rewrite in_uniq, in_flat_map. split.
  - intros [e [He Hx]]. exists e. split; [exact He|]. simpl in Hx. intuition.
  - intros [e [He Hx]]. exists e. split; [exact He|]. simpl. intuition.
Qed.

Lemma toposort_spec g out :
  toposort g = Some out ->
  NoDup out /\ (forall x, In x out <-> In x (nodesOf g)) /\
  (forall a b, In (a, b) g -> before a b out).
Proof.
  unfold toposort. intros H. destruct (kahn_spec _ _ _ _ H) as [Hnd [Hin Hbef]].
  split; [exact Hnd|]. split; [exact Hin|].
  intros a b Hab. apply Hbef; [exact Hab| |]; apply in_nodesOf; exists (a, b); simpl; auto.
Qed.

Lemma isNode_nodesOf g n : isNode g n = true <-> In n (nodesOf g).
Proof.
  unfold isNode. rewrite existsb_exists, in_nodesOf. split.
  - intros [e [He Hn]]. exists e. split; [exact He|].
    apply orb_true_iff in Hn as [Hn|Hn]; apply String.eqb_eq in Hn; auto.
  - intros [e [He Hn]]. exists e. split; [exact He|].
    apply orb_true_iff. destruct Hn as [ -> | -> ]; [left|right]; apply String.eqb_refl.
Qed.

(** ** Step-time orderings *)

Lemma Forall2_in_r {A B} (R : A -> B -> Prop) l1 l2 y :
  Forall2 R l1 l2 -> In y l2 -> exists x, In x l1 /\ R x y.
Proof.
  induction 1 as [|x y' l1 l2 Hxy _ IH]; simpl; [tauto|].
  intros [<-|Hy]; [exists x; auto|]. destruct (IH Hy) as [x' [? ?]]. exists x'. auto.
Qed.

Lemma Forall2_in_l {A B} (R : A -> B -> Prop) l1 l2 x :
  Forall2 R l1 l2 -> In x l1 -> exists y, In y l2 /\ R x y.
Proof.
  induction 1 as [|x' y l1 l2 Hxy _ IH]; simpl; [tauto|].
  intros [<-|Hx]; [exists y; auto|]. destruct (IH Hx) as [y' [? ?]]. exists y'. auto.
Qed.

Lemma unique_refId l x y :
  NoDup (map refId l) -> In x l -> In y l -> refId x = refId y -> x = y.
Proof.
  induction l as [|z l IH]; simpl; [tauto|].
  intros Hnd Hx Hy Heq. inversion Hnd as [|? ? Hz Hnd']; subst.
  destruct Hx as [<-|Hx], Hy as [<-|Hy]; auto.
  - exfalso. apply Hz. rewrite Heq. now apply in_map.
  - exfalso. apply Hz. rewrite <- Heq. now apply in_map.
Qed.

Lemma findByRefId_self l x :
  NoDup (map refId l) -> In x l -> findByRefId l (refId x) = Some x.
Proof.
  intros Hnd Hx. destruct (findByRefId l (refId x)) as [y|] eqn:Hf.
  - apply findByRefId_some in Hf as [Hy Heq]. f_equal. apply (unique_refId l); auto.
  - exfalso. exact (findByRefId_complete l x Hx Hf).
Qed.

Lemma varWithRefId_self reg l x :
  NoDup (map refId l) -> In x l -> varWithRefId reg l (refId x) = Some x.
Proof. intros Hnd Hx. unfold varWithRefId. now rewrite findByRefId_self. Qed.

Lemma NoDup_map_filter {A B} (f : A -> B) p l :
  NoDup (map f l) -> NoDup (map f (filter p l)).
Proof.
  induction l as [|x l IH]; simpl; [auto|].
  intros Hnd. inversion Hnd as [|? ? Hx Hnd']; subst.
  destruct (p x); simpl; [|auto]. constructor; [|auto].
  intros Hin. apply Hx. apply in_map_iff in Hin as [y [Hy Hin]].
  apply filter_In in Hin as [Hin _]. rewrite <- Hy. now apply in_map.
Qed.

Lemma filter_all {A} (p : A -> bool) l :
  (forall x, In x l -> p x = true) -> filter p l = l.
Proof.
  induction l as [|x l IH]; simpl; [auto|]. intros H.
  rewrite (H x (or_introl eq_refl)). f_equal. auto.
Qed.

Lemma VarType_eqb_eq a b : VarType_eqb a b = true <-> a = b.
Proof. unfold VarType_eqb. destruct (VarType_eq_dec a b); split; congruence. Qed.

Lemma in_varsOfType t l v :
  In v (varsOfType t l) <-> In v l /\ varType v = t /\ varName v <> "_time".
Proof.
  unfold varsOfType. rewrite filter_In, andb_true_iff, VarType_eqb_eq, negb_true_iff.
  rewrite String.eqb_neq. tauto.
Qed.

(** The edges of [depGraph]: same-type references of each record of the
    type, level-to-level edges inverted. *)
Lemma depGraph_edges reg variables t graph :
  depGraph reg variables t = Some graph ->
  forall a b,
    In (a, b) graph <->
    exists v r ref,
      In v (varsOfType t variables) /\ In r (references v) /\
      varWithRefId reg variables r = Some ref /\ varType ref = t /\
      (a, b) = (if isLevel v && isLevel ref then (refId ref, refId v)
                else (refId v, refId ref)).
Proof.
  unfold depGraph. intros Hg a b.
  destruct (map_option (depPairs reg variables t) (varsOfType t variables)) as [pairs|] eqn:Hp;
    [|discriminate].
  simpl in Hg. injection Hg as <-. apply map_option_Forall2 in Hp.
  rewrite in_concat. split.
  - intros [p [Hpin Hab]].
    destruct (Forall2_in_r _ _ _ _ Hp Hpin) as [v [Hv Hdp]].
    unfold depPairs in Hdp.
    destruct (map_option (varWithRefId reg variables) (references v)) as [rs|] eqn:Hrs;
      [|discriminate].
    simpl in Hdp. injection Hdp as <-. apply map_option_Forall2 in Hrs.
    apply in_map_iff in Hab as [ref [Hab Href]].
    apply in_uniq, filter_In in Href as [Href Ht]. apply VarType_eqb_eq in Ht.
    destruct (Forall2_in_r _ _ _ _ Hrs Href) as [r [Hr Hw]].
    exists v, r, ref. auto.
  - intros [v [r [ref [Hv [Hr [Hw [Ht Hab]]]]]]].
    destruct (Forall2_in_l _ _ _ _ Hp Hv) as [p [Hpin Hdp]].
    exists p. split; [exact Hpin|].
    unfold depPairs in Hdp.
    destruct (map_option (varWithRefId reg variables) (references v)) as [rs|] eqn:Hrs;
      [|discriminate].
    simpl in Hdp. injection Hdp as <-. apply map_option_Forall2 in Hrs.
    destruct (Forall2_in_l _ _ _ _ Hrs Hr) as [ref' [Href' Hw']].
    rewrite Hw in Hw'. injection Hw' as <-.
    apply in_map_iff. exists ref. split; [now rewrite Hab|].
    apply in_uniq, filter_In. split; [exact Href'|]. now apply VarType_eqb_eq.
Qed.

Lemma Forall2_impl_in {A B} (R R' : A -> B -> Prop) l1 l2 :
  Forall2 R l1 l2 -> (forall x y, In x l1 -> R x y -> R' x y) -> Forall2 R' l1 l2.
Proof.
  induction 1 as [|x y l1 l2 Hxy _ IH]; intros H; constructor.
  - apply H; [now left|exact Hxy].
  - apply IH. intros x' y' Hx. apply H. now right.
Qed.

Lemma Forall2_map_refId {P : Variable_ -> Prop} l ws :
  Forall2 (fun n w => refId w = n /\ P w) l ws -> map refId ws = l.
Proof. induction 1 as [|n w l ws [H _] _ IH]; simpl; congruence. Qed.

Lemma in_vsort v l : In v (vsort l) <-> In v l.
Proof.
  unfold vsort. split; apply Permutation_in;
    [apply sort_by_perm|apply Permutation_sym, sort_by_perm].
Qed.

(** C2: the step-time sequences for [aux] and [level].  The dependency
    graph has an edge for each same-type reference of each record of the
    type, inverted between two levels; the returned sequence holds each
    record of the type once, places the target of every edge before its
    source (prerequisites first), and starts with the records that take
    part in no edge, sorted by refId. *)
Theorem sortVarsOfType_topological reg variables t graph out :
  (t = Aux \/ t = Level) ->
  NoDup (map refId variables) ->
  (forall v, In v variables -> varName v = "_time" -> varType v = Untyped) ->
  depGraph reg variables t = Some graph ->
  sortVarsOfType reg variables t = Some out ->
  (forall a b,
     In (a, b) graph <->
     exists v r ref,
       In v (varsOfType t variables) /\ In r (references v) /\
       varWithRefId reg variables r = Some ref /\ varType ref = t /\
       (a, b) = (if isLevel v && isLevel ref then (refId ref, refId v)
                 else (refId v, refId ref))) /\
  (forall v, In v out <-> In v (varsOfType t variables)) /\
  NoDup (map refId out) /\
  (forall a b, In (a, b) graph ->
     exists l1 l2, out = l1 ++ l2 /\
       (exists w, In w l1 /\ refId w = b) /\ (exists u, In u l2 /\ refId u = a)) /\
  (exists rest,
     out = vsort (filter (fun v => negb (isNode graph (refId v))) (varsOfType t variables))
           ++ rest /\
     forall w, In w rest -> isNode graph (refId w) = true).
Proof.
  intros Htype Hnd Htime Hg Hs.
  pose proof (depGraph_edges reg variables t graph Hg) as Hedges.
  unfold sortVarsOfType in Hs. rewrite Hg in Hs. simpl in Hs.
  destruct (toposort graph) as [sorted|] eqn:Hts; [|discriminate]. simpl in Hs.
  destruct (map_option (varWithRefId reg variables) (rev sorted)) as [depVars|] eqn:Hdv;
    [|discriminate].
  simpl in Hs. injection Hs as <-.
  set (vars := varsOfType t variables) in *.
  destruct (toposort_spec _ _ Hts) as [Hsnd [Hsin Hsbef]].
  assert (Hvars : forall x, In x vars -> In x variables)
    by (intros x Hx; now apply in_varsOfType in Hx).
  assert (Hend : forall n, In n (nodesOf graph) -> exists x, In x vars /\ refId x = n).
  { intros n Hn. apply in_nodesOf in Hn as [[a b] [He Hab]].
    apply Hedges in He as [v [r [ref [Hv [_ [Hw [Ht Heq]]]]]]].
    assert (Href : In ref vars).
    { apply in_varsOfType. split; [now apply varWithRefId_in in Hw|]. split; [exact Ht|].
      intros Hn. apply varWithRefId_in in Hw. specialize (Htime ref Hw Hn).
      destruct Htype; congruence. }
    destruct (isLevel v && isLevel ref); injection Heq as -> ->; simpl in Hab;
      destruct Hab as [ -> | -> ]; eauto. }
  apply map_option_Forall2 in Hdv.
  assert (Hdv' : Forall2 (fun n w => refId w = n /\ In w vars) (rev sorted) depVars).
  { apply (Forall2_impl_in _ _ _ _ Hdv). intros n w Hn Hw.
    rewrite <- in_rev, Hsin in Hn. destruct (Hend n Hn) as [x [Hx <-]].
    rewrite varWithRefId_self in Hw by auto. injection Hw as <-. auto. }
  assert (Hmap : map refId depVars = rev sorted) by exact (Forall2_map_refId _ _ Hdv').
  assert (Hdep_in : forall w, In w depVars -> In w vars /\ In (refId w) (nodesOf graph)).
  { intros w Hw. destruct (Forall2_in_r _ _ _ _ Hdv' Hw) as [n [Hn [<- Hwv]]].
    split; [exact Hwv|]. apply Hsin. now apply in_rev. }
  assert (Hnode_in : forall v, In v vars -> In (refId v) (nodesOf graph) -> In v depVars).
  { intros v Hv Hn. apply Hsin, in_rev in Hn.
    destruct (Forall2_in_l _ _ _ _ Hdv' Hn) as [w [Hw [Heq Hwv]]].
    replace v with w; [exact Hw|]. apply (unique_refId variables); auto. }
  assert (Hsorted : varsOfType t depVars = depVars).
  { apply filter_all. intros w Hw. apply Hdep_in in Hw as [Hw _].
    apply in_varsOfType in Hw as [_ [Ht Hn]].
    rewrite Ht, andb_true_iff, negb_true_iff, String.eqb_neq, VarType_eqb_eq. auto. }
  rewrite Hsorted.
  assert (Hfilt : filter (fun v => if in_dec Variable_eq_dec v depVars then false else true) vars
                  = filter (fun v => negb (isNode graph (refId v))) vars).
  { apply filter_ext_in. intros v Hv.
    destruct (in_dec Variable_eq_dec v depVars) as [Hin|Hnin].
    - apply Hdep_in in Hin as [_ Hn]. apply isNode_nodesOf in Hn. now rewrite Hn.
    - destruct (isNode graph (refId v)) eqn:Hn; [|reflexivity].
      apply isNode_nodesOf in Hn. exfalso. exact (Hnin (Hnode_in v Hv Hn)). }
  split; [exact Hedges|]. split; [|split; [|split]].
  - intros v. rewrite in_app_iff, in_vsort, filter_In. split.
    + intros [[Hv _]|Hv]; [exact Hv|]. now apply Hdep_in.
    + intros Hv. destruct (in_dec Variable_eq_dec v depVars); auto.
  - rewrite map_app, Hmap. apply NoDup_app.
    + apply (Permutation_NoDup (Permutation_map refId (Permutation_sym (sort_by_perm _ _)))).
      apply NoDup_map_filter. unfold vars, varsOfType. now apply NoDup_map_filter.
    + now apply NoDup_rev.
    + intros a Ha Hb. rewrite <- Hmap in Hb.
      apply in_map_iff in Ha as [x [<- Hx]]. apply in_map_iff in Hb as [y [Hxy Hy]].
      apply in_vsort, filter_In in Hx as [Hx Hnot].
      assert (x = y) as <-.
      { apply (unique_refId variables); auto. apply Hvars. now apply Hdep_in. }
      destruct (in_dec Variable_eq_dec x depVars); [discriminate|contradiction].
  - intros a b Hab. pose proof (before_rev _ _ _ (Hsbef a b Hab)) as [l1 [l2 [Hsp [Hb Ha]]]].
    rewrite Hsp in Hdv'. apply Forall2_app_inv_l in Hdv' as [w1 [w2 [H1 [H2 ->]]]].
    destruct (Forall2_in_l _ _ _ _ H1 Hb) as [w [Hw [Hwb _]]].
    destruct (Forall2_in_l _ _ _ _ H2 Ha) as [u [Hu [Hua _]]].
    eexists (_ ++ w1), w2. rewrite <- app_assoc. split; [reflexivity|].
    split; [exists w; split; [apply in_app_iff; now right|exact Hwb]|].
    exists u. auto.
  - exists depVars. rewrite Hfilt. split; [reflexivity|].
    intros w Hw. apply isNode_nodesOf. now apply Hdep_in.
Qed.

(** ** Init-time ordering *)

Lemma depsMap_get_in m k x : depsMap_get m k = Some x -> In (k, x) m.
Proof.
  induction m as [|[k' y] m IH]; simpl; [discriminate|].
  destruct (String.eqb_spec k k') as [->|_]; [intros [= ->]; now left|].
  intros H. right. now apply IH.
Qed.

Lemma depsMap_get_none m k x : depsMap_get m k = None -> ~ In (k, x) m.
Proof.
  induction m as [|[k' y] m IH]; simpl; [auto|].
  destruct (String.eqb_spec k k') as [->|Hne]; [discriminate|].
  intros H [[= -> _]|Hin]; [contradiction|exact (IH H Hin)].
Qed.

Lemma depsMap_set_in m k x k' y :
  In (k', y) (depsMap_set m k x) -> (k' = k /\ y = x) \/ In (k', y) m.
Proof.
  induction m as [|[k0 y0] m IH]; simpl.
  - intros [[= -> ->]|[]]. now left.
  - destruct (String.eqb k k0).
    + intros [[= -> ->]|Hin]; [now left|auto].
    + intros [Heq|Hin]; [auto|]. destruct (IH Hin); auto.
Qed.

Lemma depsMap_set_new m k x : In (k, x) (depsMap_set m k x).
Proof.
  induction m as [|[k0 y0] m IH]; simpl; [now left|].
  destruct (String.eqb k k0); [now left|now right].
Qed.

Lemma depsMap_set_keep m k x k' y :
  In (k', y) m -> exists y', In (k', y') (depsMap_set m k x).
Proof.
  induction m as [|[k0 y0] m IH]; simpl; [contradiction|].
  destruct (String.eqb_spec k k0) as [->|_].
  - intros [[= -> ->]|Hin]; [exists x; now left|exists y; now right].
  - intros [[= -> ->]|Hin]; [exists y; now left|].
    destruct (IH Hin) as [y' Hy']. exists y'. now right.
Qed.

Lemma initDone_set m k x w : initDone m w -> initDone (depsMap_set m k x) w.
Proof.
  intros [H|[ds Hds]]; [now left|right]. exact (depsMap_set_keep _ _ _ _ _ Hds).
Qed.

Lemma reach_in variables x : initReachable variables x -> In x variables.
Proof. induction 1; assumption. Qed.

Lemma in_initGraph m a b : In (a, b) (initGraph m) <-> exists ds, In (a, ds) m /\ In b ds.
Proof.
  unfold initGraph. rewrite in_flat_map. split.
  - intros [[k ds] [Hk Hab]]. apply in_map_iff in Hab as [d [[= -> ->] Hd]]. eauto.
  - intros [ds [Hk Hb]]. exists (a, ds). split; [exact Hk|]. apply in_map_iff. eauto.
Qed.

Section InitWalk.
  Variable reg : Registry.
  Variable variables : list Variable_.
  Hypothesis Hnd : NoDup (map refId variables).
  Hypothesis Hrefs : forall v r, In v variables -> In r (followRefs v) ->
    exists w, In w variables /\ refId w = r /\ isConstOrLookup w = false.

Lemma resolve_followed v r :
    In v variables -> In r (followRefs v) ->
    exists w, varWithRefId reg variables r = Some w /\ In w variables /\
              refId w = r /\ isConstOrLookup w = false.
  Proof.
    intros Hv Hr. destruct (Hrefs v r Hv Hr) as [w [Hw [<- Hcl]]].
    exists w. rewrite varWithRefId_self by assumption. auto.
  Qed.

Lemma queueRef_in m vars r x :
    In x (queueRef reg variables m vars r) ->
    In x vars \/ varWithRefId reg variables r = Some x.
  Proof.
    unfold queueRef. destruct (depsMap_get m r); [auto|].
    destruct (varWithRefId reg variables r) as [y|]; [|auto].
    destruct (_ && _); [|auto]. intros [<-|H]; auto.
  Qed.

Lemma queueRef_keep m vars r x :
    In x vars -> In x (queueRef reg variables m vars r).
  Proof.
    unfold queueRef. destruct (depsMap_get m r); [auto|].
    destruct (varWithRefId reg variables r) as [y|]; [|auto].
    destruct (_ && _); simpl; auto.
  Qed.

Lemma queueRef_push m vars r x :
    depsMap_get m r = None -> varWithRefId reg variables r = Some x ->
    varType x <> Const -> In x (queueRef reg variables m vars r).
  Proof.
    intros Hg Hx Ht. unfold queueRef. rewrite Hg, Hx.
    destruct (in_dec Variable_eq_dec x vars) as [Hin|Hnin].
    - rewrite andb_false_r. exact Hin.
    - replace (negb (VarType_eqb (varType x) Const)) with true; [now left|].
      symmetry. apply negb_true_iff. destruct (VarType_eqb (varType x) Const) eqn:E; [|reflexivity].
      apply VarType_eqb_eq in E. contradiction.
  Qed.

Lemma queueRefs_spec m L : forall vars,
    let s := fold_left (queueRef reg variables m) L vars in
    (forall x, In x s -> In x vars \/ exists r, In r L /\ varWithRefId reg variables r = Some x) /\
    (forall x, In x vars -> In x s) /\
    (forall r x, In r L -> depsMap_get m r = None -> varWithRefId reg variables r = Some x ->
       varType x <> Const -> In x s).
  Proof.
    induction L as [|a L IH]; intros vars; simpl.
    - split; [auto|]. split; [auto|]. intros r x [].
    - destruct (IH (queueRef reg variables m vars a)) as [H1 [H2 H3]].
      split; [|split].
      + intros x Hx. destruct (H1 x Hx) as [Hq|[r [Hr Hrx]]].
        * destruct (queueRef_in _ _ _ _ Hq) as [Hv|Ha]; [now left|right; eauto].
        * right. eauto.
      + intros x Hx. apply H2. now apply queueRef_keep.
      + intros r x [<-|Hr] Hg Hx Ht.
        * apply H2. now apply queueRef_push.
        * now apply (H3 r x).
  Qed.

Lemma addDepsToMap_inv v m rest :
    walkInv variables (m, v :: rest) ->
    walkInv variables (addDepsToMap reg variables v (m, rest)).
  Proof.
    intros [I1 [I2 [I3 I4]]]; simpl in *.
    assert (Rv : initReachable variables v) by (apply I1; now left).
    assert (Hv : In v variables) by exact (reach_in _ _ Rv).
    unfold addDepsToMap. destruct (followRefs v) as [|r0 rs] eqn:Hf.
    - split; [|split; [|split]]; simpl.
      + intros x Hx. apply I1. now right.
      + exact I2.
      + intros x Hx Hs. destruct (I3 x Hx Hs) as [[<-|Hin]|Hd];
          [right; now left|now left|now right].
      + intros k ds r w Hk Hr Hw Hwr. destruct (I4 k ds r w Hk Hr Hw Hwr) as [[<-|Hin]|Hd];
          [right; now left|now left|now right].
    - set (m' := depsMap_set m (refId v) (r0 :: rs)).
      destruct (queueRefs_spec m' (r0 :: rs) rest) as [F1 [F2 F3]].
      assert (Hdone : initDone m' v) by (right; exists (r0 :: rs); apply depsMap_set_new).
      split; [|split; [|split]]; simpl.
      + intros x Hx. destruct (F1 x Hx) as [Hr|[r [Hr Hx']]]; [apply I1; now right|].
        rewrite <- Hf in Hr. destruct (resolve_followed v r Hv Hr) as [w [Hw [Hwin [Hwr _]]]].
        rewrite Hw in Hx'. injection Hx' as <-.
        apply reach_ref with v; [exact Rv|exact Hwin|rewrite Hwr; exact Hr].
      + intros k ds Hk. destruct (depsMap_set_in _ _ _ _ _ Hk) as [[-> ->]|Hin];
          [exists v; auto|now apply I2].
      + intros x Hx Hs. destruct (I3 x Hx Hs) as [[<-|Hin]|Hd];
          [right; exact Hdone|left; now apply F2|right; now apply initDone_set].
      + intros k ds r w Hk Hr Hw Hwr. destruct (depsMap_set_in _ _ _ _ _ Hk) as [[-> ->]|Hin].
        * destruct (depsMap_get m' r) as [l|] eqn:Hg.
          -- right. right. exists l. rewrite Hwr. now apply depsMap_get_in.
          -- left. assert (Hr' : In r (followRefs v)) by now rewrite Hf.
             destruct (resolve_followed v r Hv Hr') as [w' [Hw' [Hw'in [Hw'r Hcl]]]].
             assert (w' = w) as <- by (apply (unique_refId variables); congruence).
             apply (F3 r w'); auto.
             intros Ht. unfold isConstOrLookup in Hcl. rewrite Ht in Hcl. discriminate.
        * destruct (I4 k ds r w Hin Hr Hw Hwr) as [[<-|Hin']|Hd];
            [right; exact Hdone|left; now apply F2|right; now apply initDone_set].
  Qed.

Lemma drainQueue_inv fuel : forall st m,
    walkInv variables st -> drainQueue fuel reg variables st = Some m ->
    walkInv variables (m, []).
  Proof.
    induction fuel as [|fuel IH]; intros [m0 q] m Hi H; simpl in H;
      destruct q as [|v rest]; try discriminate.
    - injection H as <-. exact Hi.
    - injection H as <-. exact Hi.
    - exact (IH _ m (addDepsToMap_inv v m0 rest Hi) H).
  Qed.

Lemma walkInv_start :
    walkInv variables ([], rev (filter hasInitValue variables)).
  Proof.
    split; [|split; [|split]]; simpl.
    - intros x Hx. apply in_rev, filter_In in Hx as [Hx Hs]. now apply reach_seed.
    - intros k ds [].
    - intros x Hx Hs. left. rewrite <- in_rev. apply filter_In. auto.
    - intros k ds r w [].
  Qed.

Lemma walkInv_closed m :
    walkInv variables (m, []) -> forall x, initReachable variables x -> initDone m x.
  Proof.
    intros [_ [I2 [I3 I4]]] x Hx; simpl in *.
    induction Hx as [v Hv Hs|v w Rv IH Hw Hr].
    - destruct (I3 v Hv Hs) as [[]|Hd]. exact Hd.
    - destruct IH as [Hf|[ds Hds]]; [rewrite Hf in Hr; destruct Hr|].
      destruct (I2 _ _ Hds) as [x [Rx [Hxr ->]]].
      assert (x = v) as -> by (apply (unique_refId variables); auto using reach_in).
      destruct (I4 _ _ _ w Hds Hr Hw eq_refl) as [[]|Hd]. exact Hd.
  Qed.
End InitWalk.

(** C3 (counterexample): [_k = INITIAL(5)] is a constant seed.  The init
    sequence is [[_k]]: [sortInitVars] adds back every seed missing from the
    sorted part, so this [const] record is not removed. *)
Lemma init_const_seed_kept :
  sortInitVars emptyRegistry initConstTable = Some [kConst] /\
  varType kConst = Const /\ hasInitValue kConst = true.
Proof. split; [vm_compute; reflexivity|split; reflexivity]. Qed.

(** C3 (amended): when refIds are unique and every followed reference
    ([initReferences] of a record with an init value, [references] of the
    others) is the refId of a record that is neither [const] nor [lookup]
    (reference resolution followed by constant-reference pruning), the
    init-time sequence holds exactly the records reached from the seeds
    ([hasInitValue = true]), each once, seeds of type [const] or [lookup]
    included; and each record that is not [const] or [lookup] comes after
    the records its followed references name. *)
Theorem sortInitVars_closure reg variables out :
  NoDup (map refId variables) ->
  (forall v r, In v variables -> In r (followRefs v) ->
     exists w, In w variables /\ refId w = r /\ isConstOrLookup w = false) ->
  sortInitVars reg variables = Some out ->
  (forall w, In w out <-> initReachable variables w) /\
  NoDup (map refId out) /\
  (forall x y, In x out -> isConstOrLookup x = false -> In y variables ->
     In (refId y) (followRefs x) -> before y x out).
Proof.
  intros Hnd Hrefs Hs. unfold sortInitVars in Hs.
  destruct (drainQueue _ reg variables _) as [m|] eqn:Hm; [|discriminate]. simpl in Hs.
  pose proof (drainQueue_inv reg variables Hnd Hrefs _ _ _ (walkInv_start variables) Hm) as Hinv.
  pose proof (walkInv_closed variables Hnd m Hinv) as Hclosed.
  destruct Hinv as [_ [I2 _]]; simpl in I2.
  set (g := initGraph m) in *.
  destruct (toposort g) as [sorted|] eqn:Hts; [|discriminate]. simpl in Hs.
  destruct (map_option (varWithRefId reg variables) (rev sorted)) as [dv|] eqn:Hdv;
    [|discriminate].
  simpl in Hs. injection Hs as <-.
  destruct (toposort_spec _ _ Hts) as [Hsnd [Hsin Hsbef]].
  assert (Hsame : forall x y, In x variables -> In y variables -> refId x = refId y -> x = y)
    by (intros; now apply (unique_refId variables)).
  assert (Hcl : forall x y, In x variables -> In y variables -> In (refId y) (followRefs x) ->
                isConstOrLookup y = false).
  { intros x y Hx Hy Hr. destruct (Hrefs x _ Hx Hr) as [w [Hw [Hwy Hwcl]]].
    now rewrite <- (Hsame w y Hw Hy Hwy). }
  assert (Hnode : forall n, In n (nodesOf g) ->
            exists x, In x variables /\ initReachable variables x /\ refId x = n).
  { intros n Hn. apply in_nodesOf in Hn as [[a b] [He Hab]].
    apply in_initGraph in He as [ds [Hk Hb]].
    destruct (I2 _ _ Hk) as [x [Rx [Hxa ->]]]. simpl in Hab.
    destruct Hab as [ -> | -> ]; [exists x; auto using reach_in|].
    destruct (Hrefs x b (reach_in _ _ Rx) Hb) as [w [Hw [Hwb _]]].
    exists w. split; [exact Hw|]. split; [|exact Hwb].
    apply reach_ref with x; [exact Rx|exact Hw|now rewrite Hwb]. }
  assert (Hedge : forall x y, initReachable variables x -> In y variables ->
            In (refId y) (followRefs x) -> In (refId x, refId y) g).
  { intros x y Rx Hy Hr. destruct (Hclosed x Rx) as [Hf|[ds Hds]];
      [rewrite Hf in Hr; destruct Hr|].
    destruct (I2 _ _ Hds) as [x' [Rx' [Hx'r ->]]].
    rewrite (Hsame x' x (reach_in _ _ Rx') (reach_in _ _ Rx) Hx'r) in Hds.
    apply in_initGraph. eauto. }
  apply map_option_Forall2 in Hdv.
  assert (Hdv' : Forall2 (fun n w => refId w = n /\
                            (In w variables /\ initReachable variables w)) (rev sorted) dv).
  { apply (Forall2_impl_in _ _ _ _ Hdv). intros n w Hn Hw.
    rewrite <- in_rev, Hsin in Hn. destruct (Hnode n Hn) as [x [Hx [Rx <-]]].
    rewrite varWithRefId_self in Hw by auto. injection Hw as <-. auto. }
  assert (Hmap : map refId dv = rev sorted) by exact (Forall2_map_refId _ _ Hdv').
  assert (Hdv_in : forall w, In w dv -> In w variables /\ initReachable variables w).
  { intros w Hw. destruct (Forall2_in_r _ _ _ _ Hdv' Hw) as [n [_ [_ H]]]. exact H. }
  assert (Hnode_in : forall w, In w variables -> In (refId w) (nodesOf g) -> In w dv).
  { intros w Hw Hn. apply Hsin, in_rev in Hn.
    destruct (Forall2_in_l _ _ _ _ Hdv' Hn) as [y [Hy [Heq [Hyv _]]]].
    now rewrite <- (Hsame y w Hyv Hw Heq). }
  set (p := fun v => negb (isConstOrLookup v)) in *.
  set (sv := filter p dv) in *.
  assert (Hcover : forall w, In w (vsort (filter (fun v => if in_dec Variable_eq_dec v sv
                                                          then false else true)
                                            (filter hasInitValue variables)) ++ sv)
                             <-> initReachable variables w).
  { intros w. rewrite in_app_iff, in_vsort, filter_In, filter_In. split.
    - intros [[[Hw Hs] _]|Hw]; [now apply reach_seed|].
      apply filter_In in Hw as [Hw _]. now apply Hdv_in.
    - intros Rw. destruct (in_dec Variable_eq_dec w sv) as [Hin|Hnin]; [now right|].
      destruct Rw as [w Hw Hs|v w Rv Hw Hr]; [left; auto|].
      exfalso. apply Hnin. apply filter_In. split.
      + apply Hnode_in; [exact Hw|]. apply in_nodesOf. exists (refId v, refId w).
        split; [exact (Hedge v w Rv Hw Hr)|now right].
      + unfold p. now rewrite (Hcl v w (reach_in _ _ Rv) Hw Hr). }
  split; [exact Hcover|split].
  - rewrite map_app. apply NoDup_app.
    + apply (Permutation_NoDup (Permutation_map refId (Permutation_sym (sort_by_perm _ _)))).
      now do 2 apply NoDup_map_filter.
    + apply NoDup_map_filter. rewrite Hmap. now apply NoDup_rev.
    + intros a Ha Hb.
      apply in_map_iff in Ha as [x [<- Hx]]. apply in_map_iff in Hb as [y [Hxy Hy]].
      apply in_vsort, filter_In in Hx as [Hx Hnot]. apply filter_In in Hx as [Hx _].
      assert (Hyd := Hy). apply filter_In in Hyd as [Hyd _].
      rewrite (Hsame x y Hx (proj1 (Hdv_in y Hyd)) (eq_sym Hxy)) in Hnot.
      destruct (in_dec Variable_eq_dec y sv); [discriminate|contradiction].
  - intros x y Hx Hxcl Hy Hr.
    assert (Rx : initReachable variables x) by now apply Hcover.
    pose proof (before_rev _ _ _ (Hsbef _ _ (Hedge x y Rx Hy Hr))) as [l1 [l2 [Hsp [Hb Ha]]]].
    rewrite Hsp in Hdv'. apply Forall2_app_inv_l in Hdv' as [d1 [d2 [H1 [H2 Hd]]]].
    destruct (Forall2_in_l _ _ _ _ H1 Hb) as [y' [Hy' [Hy'r [Hy'v _]]]].
    destruct (Forall2_in_l _ _ _ _ H2 Ha) as [x' [Hx' [Hx'r [Hx'v _]]]].
    rewrite (Hsame y' y Hy'v Hy Hy'r) in Hy'.
    rewrite (Hsame x' x Hx'v (reach_in _ _ Rx) Hx'r) in Hx'.
    assert (Hsv : sv = filter p d1 ++ filter p d2) by (unfold sv; now rewrite Hd, filter_app).
    assert (Hsplit : forall pre, before y x (pre ++ sv)); [|apply Hsplit].
    intros pre. rewrite Hsv. exists (pre ++ filter p d1), (filter p d2).
    split; [now rewrite app_assoc|]. split.
    + apply in_app_iff. right. apply filter_In. split; [exact Hy'|].
      unfold p. now rewrite (Hcl x y (reach_in _ _ Rx) Hy Hr).
    + apply filter_In. split; [exact Hx'|]. unfold p. now rewrite Hxcl.
Qed.

(** ** Dimension expansion *)

Lemma isDimension_names dims s :
  isDimension (dimRegistry dims) s = true <-> In s (map name dims).
Proof.
  unfold isDimension, sub, dimRegistry; simpl. rewrite in_map_iff.
  destruct (find (fun d => String.eqb (name d) s) dims) as [E|] eqn:Hf.
  - apply find_some in Hf as [HE Hn]. apply String.eqb_eq in Hn.
    split; [intros _; eauto|reflexivity].
  - split; [discriminate|]. intros [E [Hn HE]].
    apply (find_none _ _ Hf) in HE. rewrite Hn, String.eqb_refl in HE. discriminate.
Qed.

Lemma sub_dimRegistry dims s :
  match sub (dimRegistry dims) s with
  | Some (SubDim E) => In E dims /\ name E = s
  | Some (SubIdx _) => False
  | None => ~ In s (map name dims)
  end.
Proof.
  destruct (sub (dimRegistry dims) s) as [[E|i]|] eqn:Hs.
  - unfold sub, dimRegistry in Hs; simpl in Hs.
    destruct (find _ dims) as [E'|] eqn:Hf; [|discriminate]. injection Hs as <-.
    apply find_some in Hf as [HE Hn]. now apply String.eqb_eq in Hn.
  - unfold sub, dimRegistry in Hs; simpl in Hs. destruct (find _ dims); discriminate.
  - rewrite <- isDimension_names. unfold isDimension. now rewrite Hs.
Qed.

Lemma expandPass_names todo : forall done found,
  map name (fst (expandPass done todo found)) = map name done ++ map name todo.
Proof.
  induction todo as [|dim rest IH]; intros done found; simpl; [now rewrite app_nil_r|].
  destruct (list_eq_dec _ _ _); rewrite IH, map_app; simpl; now rewrite <- app_assoc.
Qed.

Lemma expandPass_size todo : forall done found,
  (forall D, In D (done ++ todo) -> size D = List.length (value D)) ->
  forall D, In D (fst (expandPass done todo found)) -> size D = List.length (value D).
Proof.
  induction todo as [|dim rest IH]; intros done found Hs; simpl; [now rewrite app_nil_r in Hs|].
  destruct (list_eq_dec _ _ _); apply IH; intros D HD.
  - apply Hs. now rewrite <- app_assoc in HD.
  - rewrite <- app_assoc in HD. apply in_app_iff in HD as [HD|[<-|HD]].
    + apply Hs, in_app_iff. now left.
    + reflexivity.
    + apply Hs, in_app_iff. right. now right.
Qed.

Lemma expandPass_found todo : forall done found,
  snd (expandPass done todo found) = false ->
  found = false /\ fst (expandPass done todo found) = done ++ todo.
Proof.
  induction todo as [|dim rest IH]; intros done found Hf; simpl in *; [now rewrite app_nil_r|].
  destruct (list_eq_dec _ _ _).
  - destruct (IH _ _ Hf) as [-> ->]. split; [reflexivity|now rewrite <- app_assoc].
  - now destruct (IH _ _ Hf).
Qed.

Lemma expandPass_rank rk k todo : forall done found,
  (forall D s, In D done -> In s (value D) -> In s (map name (done ++ todo)) ->
     rk s + S k < rk (name D)) ->
  (forall D s, In D todo -> In s (value D) -> In s (map name (done ++ todo)) ->
     rk s + k < rk (name D)) ->
  rankedBy rk (S k) (fst (expandPass done todo found)).
Proof.
  induction todo as [|dim rest IH]; intros done found Hd Ht; simpl.
  - rewrite app_nil_r in Hd. exact Hd.
  - set (N := map name (done ++ dim :: rest)) in *.
    assert (Hv : forall s, In s (expandValue (done ++ dim :: rest) (value dim)) -> In s N ->
                 rk s + S k < rk (name dim)).
    { intros s Hs HsN. unfold expandValue in Hs.
      apply in_concat in Hs as [l [Hl Hsl]]. apply in_map_iff in Hl as [t [<- Ht']].
      pose proof (sub_dimRegistry (done ++ dim :: rest) t) as Hsub.
      destruct (sub _ t) as [[E|i]|].
      - destruct Hsub as [HE <-].
        assert (HtN : In (name E) N) by (apply in_map; exact HE).
        pose proof (Ht dim (name E) (or_introl eq_refl) Ht' HtN) as H1.
        apply in_app_iff in HE as [HE|HE].
        + pose proof (Hd E s HE Hsl HsN). lia.
        + pose proof (Ht E s HE Hsl HsN). lia.
      - destruct Hsub.
      - destruct Hsl as [<-|[]]. contradiction. }
    destruct (list_eq_dec string_dec _ (value dim)) as [Heq|Hne]; apply IH.
    + intros D s HD Hs HsN. rewrite <- app_assoc in HsN.
      apply in_app_iff in HD as [HD|[<-|[]]]; [now apply Hd|]. rewrite <- Heq in Hs. now apply Hv.
    + intros D s HD Hs HsN. rewrite <- app_assoc in HsN. apply Ht; [now right|exact Hs|exact HsN].
    + intros D s HD Hs HsN.
      replace (map name ((done ++ [withValue dim _]) ++ rest)) with N in HsN
        by (unfold N; rewrite <- app_assoc, !map_app; reflexivity).
      apply in_app_iff in HD as [HD|[<-|[]]]; [now apply Hd|]. now apply Hv.
    + intros D s HD Hs HsN.
      replace (map name ((done ++ [withValue dim _]) ++ rest)) with N in HsN
        by (unfold N; rewrite <- app_assoc, !map_app; reflexivity).
      apply Ht; [now right|exact Hs|exact HsN].
Qed.

Lemma rankedBy_fixed rk dims k :
  snd (expandPass [] dims false) = false -> rankedBy rk k dims ->
  forall j, rankedBy rk (k + j) dims.
Proof.
  intros Hf Hk j. destruct (expandPass_found dims [] false Hf) as [_ Hfix].
  induction j as [|j IH]; [now rewrite Nat.add_0_r|].
  change ([] ++ dims) with dims in Hfix.
  rewrite Nat.add_succ_r. rewrite <- Hfix. apply expandPass_rank.
  - intros D s [].
  - exact IH.
Qed.

Lemma rankedBy_none rk k dims :
  rankedBy rk k dims -> list_max (map rk (map name dims)) <= k ->
  forall D s, In D dims -> In s (value D) -> ~ In s (map name dims).
Proof.
  intros Hr Hmax D s HD Hs HsN. specialize (Hr D s HD Hs HsN).
  apply list_max_le, Forall_forall with (x := rk (name D)) in Hmax;
    [lia|now do 2 apply in_map].
Qed.

Lemma expandValue_id dims vals :
  (forall s, In s vals -> ~ In s (map name dims)) -> expandValue dims vals = vals.
Proof.
  induction vals as [|t vals IH]; intros Hn; [reflexivity|].
  change (expandValue dims (t :: vals))
    with ((match sub (dimRegistry dims) t with
           | Some (SubDim d) => value d | _ => [t] end) ++ expandValue dims vals).
  rewrite IH by (intros s Hs; apply Hn; now right).
  pose proof (sub_dimRegistry dims t) as Hsub. destruct (sub _ t) as [[E|i]|].
  - exfalso. destruct Hsub as [HE <-]. apply (Hn (name E)); [now left|now apply in_map].
  - destruct Hsub.
  - reflexivity.
Qed.

Lemma expandPass_stable todo : forall done,
  (forall D s, In D todo -> In s (value D) -> ~ In s (map name (done ++ todo))) ->
  snd (expandPass done todo false) = false.
Proof.
  induction todo as [|dim rest IH]; intros done Hn; [reflexivity|]. simpl.
  rewrite expandValue_id by (intros s Hs; exact (Hn dim s (or_introl eq_refl) Hs)).
  destruct (list_eq_dec string_dec (value dim) (value dim)) as [_|[]]; [|reflexivity].
  apply IH. intros D s HD Hs. rewrite <- app_assoc. exact (Hn D s (or_intror HD) Hs).
Qed.

Lemma expandDims_rank rk fuel : forall k dims,
  rankedBy rk k dims -> list_max (map rk (map name dims)) < k + fuel -> 1 <= fuel ->
  exists out, expandDims fuel dims = Some out /\ map name out = map name dims /\
    (forall D s, In D out -> In s (value D) -> ~ In s (map name out)).
Proof.
  induction fuel as [|f IH]; intros k dims Hr Hmax H1; [lia|]. simpl.
  destruct (expandPass [] dims false) as [dims' found] eqn:Hp.
  assert (Hnames : map name dims' = map name dims)
    by (pose proof (expandPass_names dims [] false) as H; now rewrite Hp in H).
  assert (Hr' : rankedBy rk (S k) dims').
  { pose proof (expandPass_rank rk k dims [] false) as H. rewrite Hp in H.
    apply H; [intros D s []|exact Hr]. }
  destruct found.
  - destruct f as [|f].
    + exfalso. assert (Hs : snd (expandPass [] dims false) = false).
      { apply expandPass_stable. apply (rankedBy_none rk k); [exact Hr|simpl; lia]. }
      rewrite Hp in Hs. discriminate.
    + destruct (IH (S k) dims' Hr') as [out [Hout [Hn Hno]]];
        [rewrite Hnames; lia|lia|].
      exists out. split; [exact Hout|]. split; [congruence|exact Hno].
  - assert (Hf : snd (expandPass [] dims false) = false) by now rewrite Hp.
    destruct (expandPass_found dims [] false Hf) as [_ Hfix]. rewrite Hp in Hfix.
    simpl in Hfix. subst dims'. exists dims. split; [reflexivity|]. split; [reflexivity|].
    apply (rankedBy_none rk (k + list_max (map rk (map name dims)))); [|lia].
    now apply rankedBy_fixed.
Qed.

Lemma expandDims_size fuel : forall dims out,
  (forall D, In D dims -> size D = List.length (value D)) ->
  expandDims fuel dims = Some out -> forall D, In D out -> size D = List.length (value D).
Proof.
  induction fuel as [|f IH]; intros dims out Hs Hout; simpl in Hout; [discriminate|].
  pose proof (expandPass_size dims [] false Hs) as Hs'.
  destruct (expandPass [] dims false) as [dims' found]. simpl in Hs'.
  destruct found; [exact (IH _ _ Hs' Hout)|]. injection Hout as <-. exact Hs'.
Qed.

(** C6 (counterexample): [DimA: DimB] and [DimB: DimA] form a cycle.  The
    loop stops after two passes (the second changes nothing) and raises no
    error, and [DimA] and [DimB] still have the dimension name [_dima] in
    their values. *)
Lemma cyclic_dimensions_no_error :
  expandDims 2 cycDims =
    Some [mkDimension "_dima" ["_dima"] 1 "_dima" []; mkDimension "_dimb" ["_dima"] 1 "_dimb" []] /\
  isDimension (dimRegistry cycDims) "_dima" = true.
Proof. split; vm_compute; reflexivity. Qed.

(** C6 (amended): when the dimension-name graph is acyclic (a rank [rk]
    decreases from each dimension to the dimension names in its value) and
    every declared size is the length of the declared value, the expansion
    loop stops, keeps the dimensions, leaves no dimension name in any value,
    and every size equals the length of the value.  There is no
    CyclicDimension check. *)
Theorem expandDims_acyclic (rk : string -> nat) dims :
  (forall D, In D dims -> size D = List.length (value D)) ->
  (forall D s, In D dims -> In s (value D) -> isDimension (dimRegistry dims) s = true ->
     rk s < rk (name D)) ->
  exists fuel out, expandDims fuel dims = Some out /\
    map name out = map name dims /\
    (forall D s, In D out -> In s (value D) -> isDimension (dimRegistry out) s = false) /\
    (forall D, In D out -> size D = List.length (value D)).
Proof.
  intros Hsize Hrank.
  destruct (expandDims_rank rk (S (list_max (map rk (map name dims)))) 0 dims)
    as [out [Hout [Hn Hno]]]; [|lia|lia|].
  - intros D s HD Hs HsN. rewrite Nat.add_0_r.
    apply Hrank; [exact HD|exact Hs|now apply isDimension_names].
  - exists (S (list_max (map rk (map name dims)))), out.
    split; [exact Hout|]. split; [exact Hn|]. split.
    + intros D s HD Hs. destruct (isDimension (dimRegistry out) s) eqn:E; [|reflexivity].
      apply isDimension_names in E. exfalso. exact (Hno D s HD Hs E).
    + exact (expandDims_size _ _ _ Hsize Hout).
Qed.

(** ** Dimension families *)

Lemma str_compare_ngt_trans a : forall b c,
  String.compare a b <> Gt -> String.compare b c <> Gt -> String.compare a c <> Gt.
Proof.
  induction a as [|x a IH]; intros [|y b] [|z c]; simpl; try congruence.
  unfold Ascii.compare.
  destruct (N.compare_spec (N_of_ascii x) (N_of_ascii y)) as [E1|E1|E1];
  destruct (N.compare_spec (N_of_ascii y) (N_of_ascii z)) as [E2|E2|E2];
  destruct (N.compare_spec (N_of_ascii x) (N_of_ascii z)) as [E3|E3|E3];
  try lia; try congruence. apply IH.
Qed.

Lemma str_le_compare a b : str_le a b = true <-> String.compare b a <> Lt.
Proof.
  unfold str_le, String.leb. rewrite (String.compare_antisym a b).
  destruct (String.compare b a); simpl; split; congruence.
Qed.

Lemma dimLe_iff d1 d2 :
  dimLe d1 d2 = true <->
  size d1 < size d2 \/ (size d1 = size d2 /\ String.compare (name d1) (name d2) <> Lt).
Proof.
  unfold dimLe, dimComparator.
  destruct (Nat.ltb_spec (size d1) (size d2)) as [H1|H1];
    [split; [intros _; now left|intros _; reflexivity]|].
  destruct (Nat.ltb_spec (size d2) (size d1)) as [H2|H2];
    [split; [discriminate|intros [H|[H _]]; lia]|].
  unfold String.ltb. rewrite (String.compare_antisym (name d2) (name d1)).
  destruct (String.compare (name d1) (name d2)); simpl.
  - split; [intros _; right; split; [lia|congruence]|reflexivity].
  - split; [discriminate|intros [H|[_ H]]; [lia|congruence]].
  - split; [intros _; right; split; [lia|congruence]|reflexivity].
Qed.

Lemma dimLe_total d1 d2 : dimLe d1 d2 = false -> dimLe d2 d1 = true.
Proof.
  intros H. apply dimLe_iff.
  destruct (dimLe d1 d2) eqn:E; [discriminate|]. clear H.
  assert (Hn : ~ (size d1 < size d2 \/ (size d1 = size d2 /\
                  String.compare (name d1) (name d2) <> Lt))) by (rewrite <- dimLe_iff; congruence).
  destruct (Nat.lt_trichotomy (size d1) (size d2)) as [H|[H|H]];
    [exfalso; apply Hn; now left| |now left].
  right. split; [congruence|]. rewrite String.compare_antisym.
  destruct (String.compare (name d1) (name d2)) eqn:C; simpl; try congruence.
  exfalso. apply Hn. right. split; congruence.
Qed.

Lemma dimLe_trans d1 d2 d3 : dimLe d1 d2 = true -> dimLe d2 d3 = true -> dimLe d1 d3 = true.
Proof.
  rewrite !dimLe_iff. intros [H1|[H1 C1]] [H2|[H2 C2]]; try (left; lia).
  right. split; [lia|].
  assert (G : forall a b, String.compare a b <> Lt <-> String.compare b a <> Gt).
  { intros a b. rewrite (String.compare_antisym a b).
    destruct (String.compare b a); simpl; split; congruence. }
  apply G. apply G in C1, C2. exact (str_compare_ngt_trans _ _ _ C2 C1).
Qed.

Section SortFacts.
  Context {A : Type} (le : A -> A -> bool).
  Hypothesis Htot : forall a b, le a b = false -> le b a = true.

Lemma insert_by_sorted x l :
    Sorted (fun a b => le a b = true) l -> Sorted (fun a b => le a b = true) (insert_by le x l).
  Proof.
    induction l as [|y l IH]; intros Hs; simpl; [now repeat constructor|].
    destruct (le x y) eqn:E; [constructor; [exact Hs|now constructor]|].
    apply Sorted_inv in Hs as [Hl Hh]. constructor; [now apply IH|].
    destruct l as [|z l']; simpl; [constructor; now apply Htot|].
    destruct (le x z); constructor; [now apply Htot|now inversion Hh].
  Qed.

Lemma sort_by_sorted l : Sorted (fun a b => le a b = true) (sort_by le l).
  Proof. induction l as [|x l IH]; simpl; [constructor|now apply insert_by_sorted]. Qed.
End SortFacts.

Lemma StronglySorted_last {A} (R : A -> A -> Prop) l m :
  StronglySorted R (l ++ [m]) -> forall y, In y l -> R y m.
Proof.
  induction l as [|x l IH]; simpl; intros H y Hy; [contradiction|].
  inversion H as [|? ? Hl Hf]; subst. destruct Hy as [<-|Hy]; [|now apply IH].
  rewrite Forall_forall in Hf. apply Hf, in_app_iff. right. now left.
Qed.

Lemma last_opt_snoc {A} (l : list A) m : last_opt l = Some m -> exists l', l = l' ++ [m].
Proof.
  induction l as [|x [|y r] IH]; simpl; intros H; [discriminate| |].
  - injection H as ->. now exists [].
  - destruct (IH H) as [l' Hl]. exists (x :: l'). now rewrite Hl.
Qed.

Lemma last_opt_some {A} (l : list A) x : In x l -> exists m, last_opt l = Some m.
Proof.
  intros H. destruct l as [|y r]; [contradiction|]. clear H. revert y.
  induction r as [|z r IH]; intros y; [now exists y|].
  destruct (IH z) as [m Hm]. exists m. exact Hm.
Qed.

Lemma sort_last_max l m :
  last_opt (sort_by dimLe l) = Some m -> In m l /\ forall y, In y l -> dimLe y m = true.
Proof.
  intros Hm. destruct (last_opt_snoc _ _ Hm) as [l' Hl].
  assert (Hp : forall y, In y l <-> In y (sort_by dimLe l))
    by (intros y; split; apply Permutation_in; [apply Permutation_sym|]; apply sort_by_perm).
  assert (Hss : StronglySorted (fun a b => dimLe a b = true) (sort_by dimLe l)).
  { apply Sorted_StronglySorted; [intros a b c; apply dimLe_trans|].
    apply sort_by_sorted, dimLe_total. }
  rewrite Hl in Hss, Hp. split; [apply Hp, in_app_iff; right; now left|].
  intros y Hy. apply Hp, in_app_iff in Hy as [Hy|[Heq|[]]].
  - exact (StronglySorted_last _ _ _ Hss y Hy).
  - rewrite <- Heq. destruct (dimLe m m) eqn:E; [reflexivity|].
    pose proof (dimLe_total _ _ E) as E'. congruence.
Qed.

(** C5 (counterexample): [DimA] and [DimB] both hold [a1, a2].  Both get
    the family [_dima], the smaller name of the two equal-size dimensions,
    not the first name in descending order ([_dimb]). *)
Lemma family_tie_smallest_name :
  map family (resolveFamilies None tieDims) = ["_dima"; "_dima"] /\
  String.ltb "_dima" "_dimb" = true.
Proof. split; vm_compute; reflexivity. Qed.

(** C5 (amended): the family loop keeps each dimension's name.  A truthy
    (nonempty) entry of the spec's [dimensionFamilies] for [D] becomes
    [D]'s family.  Without one, and when [D]'s value has a first index [i],
    [D]'s family is the name of a dimension [M] whose value contains [i],
    with the greatest size among those dimensions and, among those of that
    size, the alphabetically smallest name. *)
Theorem resolveFamily_spec fams allDims D :
  In D allDims ->
  In (resolveFamily fams allDims D) (resolveFamilies fams allDims) /\
  name (resolveFamily fams allDims D) = name D /\
  (forall f, specFamily fams (name D) = Some f -> family (resolveFamily fams allDims D) = f) /\
  (specFamily fams (name D) = None -> forall i, hd_error (value D) = Some i ->
     exists M, In M allDims /\ In i (value M) /\ family (resolveFamily fams allDims D) = name M /\
       forall M', In M' allDims -> In i (value M') ->
         size M' < size M \/ (size M' = size M /\ str_le (name M) (name M') = true)).
Proof.
  intros HD. split; [now apply in_map|].
  unfold resolveFamily. destruct (specFamily fams (name D)) as [f|] eqn:Hs.
  - split; [reflexivity|]. split; [intros f' [= <-]; reflexivity|discriminate].
  - split; [destruct (last_opt _); reflexivity|]. split; [discriminate|].
    intros _ i Hi. rewrite Hi.
    set (l := filter (fun thisDim => existsb (String.eqb i) (value thisDim)) allDims).
    assert (Hin : forall M, In M l <-> In M allDims /\ In i (value M)).
    { intros M. unfold l. rewrite filter_In, existsb_exists. split.
      - intros [HM [x [Hx Hix]]]. apply String.eqb_eq in Hix. subst x. auto.
      - intros [HM Hx]. split; [exact HM|]. exists i. split; [exact Hx|apply String.eqb_refl]. }
    assert (HDl : In D (sort_by dimLe l)).
    { apply (Permutation_in _ (Permutation_sym (sort_by_perm _ _))), Hin. split; [exact HD|].
      destruct (value D); [discriminate|]. injection Hi as ->. now left. }
    destruct (last_opt_some _ _ HDl) as [m Hm]. rewrite Hm.
    destruct (sort_last_max _ _ Hm) as [Hml Hmax]. apply Hin in Hml as [HmA Hmi].
    exists m. split; [exact HmA|]. split; [exact Hmi|]. split; [reflexivity|].
    intros M' HM' Hi'. assert (Hle : dimLe M' m = true) by (apply Hmax, Hin; auto).
    apply dimLe_iff in Hle as [H|[H C]]; [now left|right].
    split; [exact H|now apply str_le_compare].
Qed.

(** ** Mapping inversion *)

Lemma set_at_nth {A} i (x : A) l : forall k y,
  nth_error (set_at i x l) k = Some (Some y) <->
  (k = i /\ y = x) \/ (k <> i /\ nth_error l k = Some (Some y)).
Proof.
  revert l. induction i as [|i IH]; intros [|z l] [|k] y; simpl;
    rewrite ?IH, ?nth_error_nil; intuition congruence.
Qed.

Lemma setMapped_spec d t f inv inv' :
  setMapped (Some (SubDim d)) t f inv = inl inv' ->
  inRange (size d) (indexOf t (value d)) /\
  forall k y, nth_error inv' k = Some (Some y) <->
    (Z.of_nat k = indexOf t (value d) /\ y = f) \/
    (Z.of_nat k <> indexOf t (value d) /\ nth_error inv k = Some (Some y)).
Proof.
  unfold setMapped; simpl. destruct (Z.leb_spec 0 (indexOf t (value d))) as [H0|H0];
    destruct (Z.ltb_spec (indexOf t (value d)) (Z.of_nat (size d))) as [H1|H1]; simpl;
    try discriminate.
  intros [= <-]. split; [unfold inRange; lia|]. intros k y. rewrite set_at_nth.
  split; intros [[Hk Hy]|[Hk Hy]]; [left|right|left|right]; split; auto; lia.
Qed.

Lemma setMappedAll_spec d names f : forall inv inv',
  setMappedAll (Some (SubDim d)) names f inv = inl inv' ->
  Forall (inRange (size d)) (map (fun t => indexOf t (value d)) names) /\
  forall k y, nth_error inv' k = Some (Some y) <->
    (In (Z.of_nat k) (map (fun t => indexOf t (value d)) names) /\ y = f) \/
    (~ In (Z.of_nat k) (map (fun t => indexOf t (value d)) names) /\
     nth_error inv k = Some (Some y)).
Proof.
  induction names as [|t r IH]; intros inv inv' H; simpl in H.
  - injection H as <-. split; [constructor|]. intros k y. simpl. intuition.
  - destruct (setMapped _ t f inv) as [inv1|e] eqn:H1; [|discriminate]. simpl in H.
    destruct (setMapped_spec _ _ _ _ _ H1) as [Hr1 Hs1].
    destruct (IH _ _ H) as [Hr Hs]. split; [now constructor|].
    intros k y. rewrite Hs, Hs1. simpl.
    destruct (in_dec Z.eq_dec (Z.of_nat k) (map (fun t => indexOf t (value d)) r));
      intuition congruence.
Qed.

Lemma mapEntry_spec reg d f tsn inv inv' :
  mapEntry reg (Some (SubDim d)) f tsn inv = inl inv' ->
  exists s, tsn = Some s /\ sub reg s <> None /\
    Forall (inRange (size d)) (mapTargets reg (value d) s) /\
    forall k y, nth_error inv' k = Some (Some y) <->
      (In (Z.of_nat k) (mapTargets reg (value d) s) /\ y = f) \/
      (~ In (Z.of_nat k) (mapTargets reg (value d) s) /\ nth_error inv k = Some (Some y)).
Proof.
  unfold mapEntry. destruct tsn as [s|]; [|discriminate]. intros H. exists s.
  split; [reflexivity|]. unfold mapTargets.
  destruct (sub reg s) as [[e|ix]|]; [| |discriminate]; split; try discriminate.
  - exact (setMappedAll_spec _ _ _ _ _ H).
  - destruct (setMapped_spec _ _ _ _ _ H) as [Hr Hs]. split; [now constructor|].
    intros k y. rewrite Hs. simpl. intuition congruence.
Qed.

Lemma invertFrom_spec reg d fromVals : forall i mv inv0 inv,
  invertFrom reg (Some (SubDim d)) fromVals i mv inv0 = inl inv ->
  (forall j, j < List.length fromVals ->
     exists s, toSubNameAt mv (i + j) = Some s /\ sub reg s <> None /\
       Forall (inRange (size d)) (mapTargets reg (value d) s)) /\
  forall k y, nth_error inv k = Some (Some y) <->
    (exists j, nth_error fromVals j = Some y /\ mapHits reg (value d) mv (i + j) k /\
       forall j', j < j' < List.length fromVals -> ~ mapHits reg (value d) mv (i + j') k) \/
    ((forall j, j < List.length fromVals -> ~ mapHits reg (value d) mv (i + j) k) /\
     nth_error inv0 k = Some (Some y)).
Proof.
  induction fromVals as [|f r IH]; intros i mv inv0 inv H; simpl in H.
  - injection H as <-. split; [simpl; lia|]. intros k y. split.
    + intros Hy. right. split; [simpl; lia|exact Hy].
    + intros [[j [Hj _]]|[_ Hy]]; [now destruct j|exact Hy].
  - destruct (mapEntry reg _ f (toSubNameAt mv i) inv0) as [inv1|e] eqn:H1;
      [|discriminate]. simpl in H.
    destruct (mapEntry_spec _ _ _ _ _ _ H1) as [s0 [Hs0 [Hsub0 [Hr0 Hst0]]]].
    destruct (IH _ _ _ _ H) as [Hwf Hr].
    assert (Hhit0 : forall k, mapHits reg (value d) mv i k <->
                               In (Z.of_nat k) (mapTargets reg (value d) s0)).
    { intros k. unfold mapHits. rewrite Hs0. split; [intros [s [[= <-] Hk]]; exact Hk|eauto]. }
    assert (Hsh : forall j k, mapHits reg (value d) mv (S i + j) k <->
                              mapHits reg (value d) mv (i + S j) k)
      by (intros j k; now rewrite Nat.add_succ_r).
    split.
    + intros [|j] Hj; [rewrite Nat.add_0_r; eauto|].
      rewrite <- Nat.add_succ_comm. apply Hwf. simpl in Hj. lia.
    + intros k y. rewrite Hr, Hst0, <- Hhit0. cbn [List.length nth_error]. split.
      * intros [[j [Hj [Hh Hl]]]|[Hn [[Hk ->]|[Hk Hy]]]].
        -- left. exists (S j). split; [exact Hj|]. split; [now apply Hsh|].
           intros [|j'] Hj'; [lia|]. rewrite <- Hsh. apply Hl. lia.
        -- left. exists 0. split; [reflexivity|]. split; [now rewrite Nat.add_0_r|].
           intros [|j'] Hj'; [lia|]. rewrite <- Hsh. apply Hn. lia.
        -- right. split; [|exact Hy]. intros [|j] Hj; [now rewrite Nat.add_0_r|].
           rewrite <- Hsh. apply Hn. lia.
      * intros [[[|j] [Hj [Hh Hl]]]|[Hn Hy]].
        -- injection Hj as ->. right. split.
           ++ intros j Hj. rewrite Hsh. apply Hl. lia.
           ++ left. split; [now rewrite Nat.add_0_r in Hh|reflexivity].
        -- left. exists j. split; [exact Hj|]. split; [now apply Hsh|].
           intros j' Hj'. rewrite Hsh. apply Hl. lia.
        -- right. split.
           ++ intros j Hj. rewrite Hsh. apply Hn. lia.
           ++ right. split; [|exact Hy]. rewrite <- (Nat.add_0_r i). apply Hn. lia.
Qed.

Lemma setMapped_err td t f inv e :
  setMapped td t f inv = inr e -> e = TypeError \/ e = ReferenceError "toSubName".
Proof.
  unfold setMapped. destruct td as [[d|ix]|]; simpl; try (intros [= <-]; now left).
  destruct (_ && _)%bool; [discriminate|intros [= <-]; now right].
Qed.

Lemma setMappedAll_err td names f : forall inv e,
  setMappedAll td names f inv = inr e -> e = TypeError \/ e = ReferenceError "toSubName".
Proof.
  induction names as [|t r IH]; intros inv e; simpl; [discriminate|].
  destruct (setMapped td t f inv) as [inv1|e1] eqn:H1; simpl; [apply IH|].
  intros [= <-]. exact (setMapped_err _ _ _ _ _ H1).
Qed.

Lemma mapEntry_err reg td f tsn inv e :
  mapEntry reg td f tsn inv = inr e -> e = TypeError \/ e = ReferenceError "toSubName".
Proof.
  unfold mapEntry. destruct (match tsn with Some s => sub reg s | None => None end)
    as [[d|ix]|].
  - apply setMappedAll_err.
  - apply setMapped_err.
  - intros [= <-]. now left.
Qed.

Lemma invertFrom_err reg td fromVals : forall i mv inv e,
  invertFrom reg td fromVals i mv inv = inr e -> e = TypeError \/ e = ReferenceError "toSubName".
Proof.
  induction fromVals as [|f r IH]; intros i mv inv e; simpl; [discriminate|].
  destruct (mapEntry reg td f _ inv) as [inv1|e1] eqn:H1; simpl; [apply IH|].
  intros [= <-]. exact (mapEntry_err _ _ _ _ _ _ H1).
Qed.

Lemma traverseR_ok {A B} (f : A -> B + JsError) l : forall out,
  traverseR f l = inl out -> Forall2 (fun x y => f x = inl y) l out.
Proof.
  induction l as [|x l IH]; intros out; simpl; [intros [= <-]; constructor|].
  destruct (f x) as [y|e] eqn:Hx; simpl; [|discriminate].
  destruct (traverseR f l) as [ys|e] eqn:Hl; simpl; [|discriminate].
  intros [= <-]. constructor; [exact Hx|now apply IH].
Qed.

Lemma traverseR_err {A B} (f : A -> B + JsError) (P : JsError -> Prop) l e :
  (forall x e, f x = inr e -> P e) -> traverseR f l = inr e -> P e.
Proof.
  intros Hf. induction l as [|x l IH]; simpl; [discriminate|].
  destruct (f x) as [y|e1] eqn:Hx; simpl; [|intros [= <-]; exact (Hf _ _ Hx)].
  destruct (traverseR f l) as [ys|e1]; simpl; [discriminate|]. intros [= <-]. now apply IH.
Qed.

(** C7 (failing input): [DimA: a1, a2 -> DimB] with the mapping value
    [b1, c1], where [c1] is an index of [DimC], not of [DimB].  The inversion
    throws a ReferenceError for [toSubName] instead of logging the map-to
    error and going on.  An unknown
    name ([_zz]) throws a TypeError. *)
Lemma mapping_unknown_index_reference_error :
  invertMappings mapRegistry (dimensions mapRegistry) = inr (ReferenceError "toSubName") /\
  invertMapping mapRegistry (mkDimension "_dima" ["_a1"; "_a2"] 2 "_dima" []) "_dimb"
    [Some "_b1"; Some "_zz"] = inr TypeError.
Proof. split; vm_compute; reflexivity. Qed.

(** The inversion as the code performs it: when it succeeds, for every dimension
    [fromDim] with a mapping to a dimension [toDim], the stored mapping is
    [fromDim]'s index list if the declared mapping value is empty.
    Otherwise each entry names a known subscript whose toDim positions lie
    within toDim's size, and position [k] holds the fromDim index [f]
    exactly when [f] belongs to the last fromDim entry (in fromDim order)
    that maps onto the [k]-th toDim index.  When the inversion fails, it
    throws a TypeError or the ReferenceError for [toSubName]; there is no
    MappingError. *)
Theorem invertMappings_spec reg allDims :
  (forall out, invertMappings reg allDims = inl out ->
    forall fromDim toDimName mv toDim,
      In fromDim allDims -> In (toDimName, mv) (mappings fromDim) ->
      sub reg toDimName = Some (SubDim toDim) ->
      exists D' inv, In D' out /\ name D' = name fromDim /\ value D' = value fromDim /\
        In (toDimName, inv) (mappings D') /\
        (mv = [] -> inv = map Some (value fromDim)) /\
        (mv <> [] ->
          (forall j, j < List.length (value fromDim) ->
             exists s, toSubNameAt mv j = Some s /\ sub reg s <> None /\
               Forall (inRange (size toDim)) (mapTargets reg (value toDim) s)) /\
          (forall k f, nth_error inv k = Some (Some f) <->
             exists j, nth_error (value fromDim) j = Some f /\ mapHits reg (value toDim) mv j k /\
               forall j', j < j' < List.length (value fromDim) ->
                 ~ mapHits reg (value toDim) mv j' k))) /\
  (forall e, invertMappings reg allDims = inr e ->
     e = TypeError \/ e = ReferenceError "toSubName").
Proof.
  split.
  - intros out Hout fromDim toDimName mv toDim HD Hm Hto.
    apply traverseR_ok in Hout. destruct (Forall2_in_l _ _ _ _ Hout HD) as [D' [HD' Hf]].
    destruct (traverseR _ (mappings fromDim)) as [ms|e] eqn:Hms; simpl in Hf; [|discriminate].
    injection Hf as <-. apply traverseR_ok in Hms.
    destruct (Forall2_in_l _ _ _ _ Hms Hm) as [[k inv] [Hin He]]. simpl in He.
    destruct (invertMapping reg fromDim toDimName mv) as [inv'|e] eqn:Hinv; simpl in He;
      [|discriminate].
    injection He as <- <-.
    eexists _, inv'. split; [exact HD'|]. split; [reflexivity|]. split; [reflexivity|].
    split; [exact Hin|]. unfold invertMapping in Hinv.
    destruct mv as [|m0 mv'].
    + split; [intros _; now injection Hinv as <-|intros []; reflexivity].
    + split; [discriminate|]. intros _. rewrite Hto in Hinv.
      destruct (invertFrom_spec _ _ _ _ _ _ _ Hinv) as [Hwf Hr].
      split; [exact Hwf|]. intros k f. rewrite Hr. split.
      * intros [H|[_ H]]; [exact H|now rewrite nth_error_nil in H].
      * intros H. now left.
  - intros e. apply (traverseR_err _ (fun e => e = TypeError \/ e = ReferenceError "toSubName")).
    intros d e' Hd.
    destruct (traverseR _ (mappings d)) as [ms|e1] eqn:Hms; simpl in Hd; [discriminate|].
    injection Hd as <-. revert Hms.
    apply (traverseR_err _ (fun e => e = TypeError \/ e = ReferenceError "toSubName")).
    intros [k mv] e2 He. simpl in He.
    destruct (invertMapping reg d k mv) as [inv|e3] eqn:Hi; simpl in He; [discriminate|].
    injection He as <-. unfold invertMapping in Hi. destruct mv; [discriminate|].
    exact (invertFrom_err _ _ _ _ _ _ _ Hi).
Qed.

(** C9 (counterexample): the spec file [spec.json] holds the text [{], on
    which [JSON.parse] throws.  [parseSpec] returns the empty spec [{}]
    normally: nothing is thrown, so the pipeline goes on with it. *)
Lemma unparseable_spec_is_empty :
  brokenSpecFs "spec.json" = Some "{" /\ smallJsonParse "{" = None /\
  parseSpec brokenSpecFs smallJsonParse prefixName "spec.json" = inl (JObj []).
Proof. repeat split; vm_compute; reflexivity. Qed.

(** C9 (amended): when the spec file cannot be read, or its text is not
    parseable JSON, [parseJsonFile] returns the empty object and
    [parseSpec] returns that empty spec without throwing, whatever
    [canonicalName] does. *)
Theorem parseSpec_unparseable_default fs parse canon filename :
  (fs filename = None \/ exists text, fs filename = Some text /\ parse text = None) ->
  parseJsonFile fs parse filename = JObj [] /\ parseSpec fs parse canon filename = inl (JObj []).
Proof.
  intros Hf.
  assert (Hp : parseJsonFile fs parse filename = JObj []).
  { unfold parseJsonFile.
    destruct Hf as [-> | [text [-> ->]]]; reflexivity. }
  split; [exact Hp|]. unfold parseSpec. rewrite Hp. reflexivity.
Qed.

(* ================================================================= *)
(** * Witnesses: each theorem applied at a sample input *)

Ltac in_sample := repeat (first [left; reflexivity | right]).

Ltac nodup_strings :=
  repeat constructor; simpl; intros Hin; repeat destruct Hin as [Hin|Hin];
  try discriminate Hin; exact Hin.

Lemma assignRefIds_refId_witness :
  In xA1 (snd (assignRefIds subVars)) /\
  (hasSubscripts xA1 = true ->
   (1 < List.length (varsWithName (varName xA1) (snd (assignRefIds subVars))))%nat ->
   refId xA1 = String.append (varName xA1)
               (String.append "[" (String.append (join "," (subscripts xA1)) "]"))) /\
  (List.length (varsWithName (varName xA1) (snd (assignRefIds subVars))) = 1 ->
   refId xA1 = varName xA1).
Proof.
  assert (H : In xA1 (snd (assignRefIds subVars))) by (vm_compute; left; reflexivity).
  split; [exact H | exact (assignRefIds_refId subVars xA1 H)].
Defined.

Lemma splitRefId_refIdForVar_witness :
  splitRefId mapRegistryOk (refIdForVar [("_x", [true; true])] xAB)
  = (varName xAB, if isNonAtoAName [("_x", [true; true])] (varName xAB) then subscripts xAB else []).
Proof.
  apply splitRefId_refIdForVar.
  - split; [discriminate | reflexivity].
  - repeat constructor; discriminate.
  - unfold normalOrder. repeat constructor.
Defined.

Lemma removeConstRefs_no_const_targets_witness :
  varType fAux <> Const /\ varType fAux <> Data /\ varType fAux <> Lookup.
Proof.
  apply (removeConstRefs_no_const_targets emptyRegistry initTable sLevel "_f" fAux).
  - vm_compute. left; reflexivity.
  - left. left. reflexivity.
  - vm_compute. reflexivity.
Defined.

Lemma sortVarsOfType_topological_witness :
  (forall a b,
     In (a, b) [("_i", "_j")] <->
     exists v r ref,
       In v (varsOfType Aux initTable) /\ In r (references v) /\
       varWithRefId emptyRegistry initTable r = Some ref /\ varType ref = Aux /\
       (a, b) = (if isLevel v && isLevel ref then (refId ref, refId v)
                 else (refId v, refId ref))) /\
  (forall v, In v [fAux; jAux; iAux] <-> In v (varsOfType Aux initTable)) /\
  NoDup (map refId [fAux; jAux; iAux]) /\
  (forall a b, In (a, b) [("_i", "_j")] ->
     exists l1 l2, [fAux; jAux; iAux] = l1 ++ l2 /\
       (exists w, In w l1 /\ refId w = b) /\ (exists u, In u l2 /\ refId u = a)) /\
  (exists rest,
     [fAux; jAux; iAux] =
       vsort (filter (fun v => negb (isNode [("_i", "_j")] (refId v))) (varsOfType Aux initTable))
       ++ rest /\
     forall w, In w rest -> isNode [("_i", "_j")] (refId w) = true).
Proof.
  apply (sortVarsOfType_topological emptyRegistry initTable Aux).
  - left. reflexivity.
  - vm_compute. nodup_strings.
  - intros v Hv. repeat destruct Hv as [<-|Hv]; try contradiction;
      vm_compute; intros Hn; try discriminate Hn; reflexivity.
  - vm_compute. reflexivity.
  - vm_compute. reflexivity.
Defined.

Lemma sortInitVars_closure_witness :
  (forall w, In w [kConst; jAux; iAux; sLevel] <-> initReachable initTable w) /\
  NoDup (map refId [kConst; jAux; iAux; sLevel]) /\
  (forall x y, In x [kConst; jAux; iAux; sLevel] -> isConstOrLookup x = false ->
     In y initTable -> In (refId y) (followRefs x) -> before y x [kConst; jAux; iAux; sLevel]).
Proof.
  apply (sortInitVars_closure emptyRegistry initTable).
  - vm_compute. nodup_strings.
  - intros v r Hv Hr. repeat destruct Hv as [<-|Hv]; try contradiction;
      vm_compute in Hr; repeat destruct Hr as [<-|Hr]; try contradiction.
    + exists iAux. split; [vm_compute; in_sample | split; reflexivity].
    + exists jAux. split; [vm_compute; in_sample | split; reflexivity].
    + exists sLevel. split; [vm_compute; in_sample | split; reflexivity].
  - vm_compute. reflexivity.
Defined.

Lemma expandDims_acyclic_witness :
  exists fuel out, expandDims fuel acyDims = Some out /\
    map name out = map name acyDims /\
    (forall D s, In D out -> In s (value D) -> isDimension (dimRegistry out) s = false) /\
    (forall D, In D out -> size D = List.length (value D)).
Proof.
  apply (expandDims_acyclic acyRank acyDims).
  - intros D HD. repeat destruct HD as [<-|HD]; try contradiction; reflexivity.
  - intros D s HD Hs Hdim. repeat destruct HD as [<-|HD]; try contradiction;
      vm_compute in Hs; repeat destruct Hs as [<-|Hs]; try contradiction;
      vm_compute in Hdim |- *; try discriminate Hdim; repeat constructor.
Defined.

Lemma resolveFamily_spec_witness :
  In (resolveFamily None tieDims dimB) (resolveFamilies None tieDims) /\
  name (resolveFamily None tieDims dimB) = name dimB /\
  (forall f, specFamily None (name dimB) = Some f -> family (resolveFamily None tieDims dimB) = f) /\
  (specFamily None (name dimB) = None -> forall i, hd_error (value dimB) = Some i ->
     exists M, In M tieDims /\ In i (value M) /\ family (resolveFamily None tieDims dimB) = name M /\
       forall M', In M' tieDims -> In i (value M') ->
         size M' < size M \/ (size M' = size M /\ str_le (name M) (name M') = true)).
Proof.
  apply resolveFamily_spec. right. left. reflexivity.
Defined.

Lemma parseSpec_unparseable_default_witness :
  parseJsonFile brokenSpecFs smallJsonParse "spec.json" = JObj [] /\
  parseSpec brokenSpecFs smallJsonParse prefixName "spec.json" = inl (JObj []).
Proof.
  apply parseSpec_unparseable_default. right. exists "{"%string.
  split; vm_compute; reflexivity.
Defined.

(* ================================================================= *)
(** * Further properties of Model.js and sde-generate.js *)

(** ** [findNonAtoAVars] and [expansionFlags] *)

Lemma expansionFlags_assoc_set k x m n :
  expansionFlags (assoc_set k x m) n = if String.eqb k n then Some x else expansionFlags m n.
Proof.
  unfold expansionFlags. induction m as [|[k' y] m IH]; simpl.
  - destruct (String.eqb k n); reflexivity.
  - destruct (String.eqb_spec k' k) as [->|Hne]; simpl.
    + destruct (String.eqb k n); reflexivity.
    + destruct (String.eqb_spec k' n) as [->|Hn]; simpl.
      * destruct (String.eqb_spec k n); [congruence|reflexivity].
      * exact IH.
Qed.

Lemma expansionFlags_fold variables names acc n :
  expansionFlags
    (fold_left
       (fun acc name =>
          let vars := varsWithName name variables in
          if Nat.ltb 1 (List.length vars) then assoc_set name (expansionDimsOf vars) acc
          else acc) names acc) n
  = if existsb (String.eqb n) names && Nat.ltb 1 (List.length (varsWithName n variables))
    then Some (expansionDimsOf (varsWithName n variables)) else expansionFlags acc n.
Proof.
  revert acc. induction names as [|a names IH]; intros acc; simpl; [reflexivity|].
  rewrite IH. destruct (String.eqb_spec n a) as [->|Hna]; simpl.
  - destruct (existsb (String.eqb a) names), (Nat.ltb 1 _) eqn:E; simpl; try reflexivity;
      rewrite ?E, ?expansionFlags_assoc_set, ?String.eqb_refl; reflexivity.
  - destruct (existsb (String.eqb n) names && _); [reflexivity|].
    destruct (Nat.ltb 1 (List.length (varsWithName a variables)));
      rewrite ?expansionFlags_assoc_set; [|reflexivity].
    destruct (String.eqb_spec a n); [congruence|reflexivity].
Qed.

Lemma opt_str_eqb_eq a b : opt_str_eqb a b = true <-> a = b.
Proof. destruct a as [x|], b as [y|]; simpl; try rewrite String.eqb_eq; split; congruence. Qed.

Lemma forallb_false_iff {A} (f : A -> bool) l :
  forallb f l = false <-> exists x, In x l /\ f x = false.
Proof.
  induction l as [|x l IH]; simpl.
  - split; [discriminate|intros [? [[] _]]].
  - destruct (f x) eqn:E; simpl.
    + rewrite IH. split; [intros [y [Hy Hf]]; exists y; auto|].
      intros [y [[->|Hy] Hf]]; [congruence|exists y; auto].
    + split; [intros _; exists x; auto|reflexivity].
Qed.

Lemma nth_error_seq_lt s l i :
  nth_error (seq s l) i = if Nat.ltb i l then Some (s + i) else None.
Proof.
  revert s i; induction l as [|l IH]; intros s [|i]; cbn [seq nth_error]; try reflexivity.
  - now rewrite Nat.add_0_r.
  - rewrite IH. change (Nat.ltb (S i) (S l)) with (Nat.ltb i l).
    destruct (Nat.ltb i l); [f_equal; lia|reflexivity].
Qed.

Lemma in_varsWithName n variables v :
  In v (varsWithName n variables) <-> In v variables /\ varName v = n.
Proof. unfold varsWithName. rewrite filter_In, String.eqb_eq. reflexivity. Qed.

Lemma existsb_varNames variables n :
  (1 < List.length (varsWithName n variables))%nat ->
  existsb (String.eqb n) (varNames variables) = true.
Proof.
  intros H. apply existsb_exists. exists n. split; [|apply String.eqb_refl].
  apply in_varNames. destruct (varsWithName n variables) as [|w ws] eqn:Hw; [simpl in H; lia|].
  assert (Hin : In w (varsWithName n variables)) by (rewrite Hw; left; reflexivity).
  apply in_varsWithName in Hin as [Hin <-]. now apply in_map.
Qed.

(** Model.js [findNonAtoAVars], [expansionFlags]: a var name gets
    expansion flags exactly when more than one record has it; the flags
    have one entry per subscript of the first such record, and entry [i]
    is true exactly when some record of that name has a different
    subscript (or none) at position [i]. *)
Theorem findNonAtoAVars_expansionFlags variables n :
  (expansionFlags (findNonAtoAVars variables []) n <> None <->
   (1 < List.length (varsWithName n variables))%nat) /\
  (forall flags, expansionFlags (findNonAtoAVars variables []) n = Some flags ->
   exists v0 rest, varsWithName n variables = v0 :: rest /\
     List.length flags = List.length (subscripts v0) /\
     forall i b, nth_error flags i = Some b ->
       (b = true <-> exists v, In v (varsWithName n variables) /\
                               nth_error (subscripts v) i <> nth_error (subscripts v0) i)).
Proof.
  unfold findNonAtoAVars. rewrite expansionFlags_fold.
  assert (E0 : expansionFlags [] n = None) by reflexivity.
  destruct (Nat.ltb_spec 1 (List.length (varsWithName n variables))) as [Hlt|Hge].
  2: { rewrite andb_false_r, E0. split; [split; [congruence|lia]|discriminate]. }
  rewrite existsb_varNames by exact Hlt. simpl. split; [split; [lia|discriminate]|].
  intros flags [= <-].
  destruct (varsWithName n variables) as [|v0 rest] eqn:Hw; [simpl in Hlt; lia|].
  exists v0, rest. split; [reflexivity|]. unfold expansionDimsOf.
  rewrite length_map, length_seq. split; [reflexivity|].
  intros i b Hb. rewrite nth_error_map, nth_error_seq_lt in Hb.
  destruct (Nat.ltb i (List.length (subscripts v0))); [|discriminate].
  injection Hb as <-.
  change (negb (forallb (fun v =>
    opt_str_eqb (nth_error (subscripts v) i) (nth_error (subscripts v0) i)) (v0 :: rest)) = true
    <-> exists v, In v (v0 :: rest) /\ nth_error (subscripts v) i <> nth_error (subscripts v0) i).
  rewrite negb_true_iff, forallb_false_iff.
  split; intros [v [Hv Hne]]; exists v; split; auto.
  - intros E. apply opt_str_eqb_eq in E. congruence.
  - destruct (opt_str_eqb _ _) eqn:E; [|reflexivity]. apply opt_str_eqb_eq in E. congruence.
Qed.

(** ** [varNames] *)

Lemma NoDup_uniq_from {A} dec (l : list A) : forall seen, NoDup (uniq_from dec seen l).
Proof.
  induction l as [|x r IH]; intros seen; simpl; [constructor|].
  destruct (in_dec dec x seen); [apply IH|].
  constructor; [|apply IH]. rewrite in_uniq_from. intros [_ Hx]. apply Hx. now left.
Qed.

Lemma str_le_total a b : str_le a b = false -> str_le b a = true.
Proof.
  intros H. apply str_le_compare. intros E.
  assert (Ha : str_le a b = true) by (apply str_le_compare; rewrite String.compare_antisym, E;
                                      discriminate).
  congruence.
Qed.

(** Model.js [varNames]: the var names of the table, each once, in
    ascending order of code units. *)
Theorem varNames_sorted_unique variables :
  Sorted (fun a b => str_le a b = true) (varNames variables) /\
  NoDup (varNames variables) /\
  (forall n, In n (varNames variables) <-> exists v, In v variables /\ varName v = n).
Proof.
  split; [apply sort_by_sorted, str_le_total|]. split.
  - eapply Permutation_NoDup; [apply Permutation_sym, sort_by_perm|]. apply NoDup_uniq_from.
  - intros n. rewrite in_varNames, in_map_iff. firstorder.
Qed.

(** ** [removeConstRefs] *)

Lemma filter_refIsConst_key reg t1 t2 l :
  map varKey t1 = map varKey t2 ->
  filter (fun r => negb (refIsConst reg t1 r)) l = filter (fun r => negb (refIsConst reg t2 r)) l.
Proof.
  intros H. induction l as [|r l IH]; simpl; [reflexivity|].
  rewrite (refIsConst_key reg t1 t2 r H), IH. reflexivity.
Qed.

Lemma removeConstRefsFrom_map reg tbl todo : forall done,
  map varKey (done ++ todo) = map varKey tbl ->
  removeConstRefsFrom reg done todo
  = done ++ map (fun v => withRefs v (filter (fun r => negb (refIsConst reg tbl r)) (references v))
                                   (filter (fun r => negb (refIsConst reg tbl r)) (initReferences v)))
                todo.
Proof.
  induction todo as [|v rest IH]; intros done H; simpl; [now rewrite app_nil_r|].
  rewrite !(filter_refIsConst_key reg (done ++ v :: rest) tbl) by exact H.
  rewrite IH.
  - rewrite <- app_assoc. reflexivity.
  - rewrite <- H, <- app_assoc, !map_app. reflexivity.
Qed.

Lemma removeConstRefs_map reg tbl :
  removeConstRefs reg tbl
  = map (fun v => withRefs v (filter (fun r => negb (refIsConst reg tbl r)) (references v))
                             (filter (fun r => negb (refIsConst reg tbl r)) (initReferences v)))
        tbl.
Proof. unfold removeConstRefs. now apply (removeConstRefsFrom_map reg tbl tbl []). Qed.

Lemma filter_idem {A} (f : A -> bool) l : filter f (filter f l) = filter f l.
Proof.
  induction l as [|x l IH]; simpl; [reflexivity|].
  destruct (f x) eqn:E; simpl; rewrite ?E, IH; reflexivity.
Qed.

(** Model.js [removeConstRefs]: pruning the records one after the other in
    place gives the same table as pruning every record against the table
    before pruning: each record keeps its fields and the references and
    init references, in order, that do not resolve to a const, data or
    lookup record. *)
Theorem removeConstRefs_simultaneous reg tbl :
  removeConstRefs reg tbl
  = map (fun v => mkVariable (varName v) (subscripts v) (refId v) (varType v) (hasInitValue v)
                    (filter (fun r => negb (refIsConst reg tbl r)) (references v))
                    (filter (fun r => negb (refIsConst reg tbl r)) (initReferences v)))
        tbl.
Proof. rewrite removeConstRefs_map. reflexivity. Qed.

(** Model.js [removeConstRefs]: a second pruning changes nothing. *)
Theorem removeConstRefs_idempotent reg tbl :
  removeConstRefs reg (removeConstRefs reg tbl) = removeConstRefs reg tbl.
Proof.
  remember (removeConstRefs reg tbl) as T eqn:HT.
  assert (Hk : map varKey T = map varKey tbl).
  { rewrite HT, removeConstRefs_map, map_map. apply map_ext. reflexivity. }
  rewrite (removeConstRefs_map reg T).
  transitivity
    (map (fun v => withRefs v (filter (fun r => negb (refIsConst reg tbl r)) (references v))
                              (filter (fun r => negb (refIsConst reg tbl r)) (initReferences v)))
         T).
  { apply map_ext. intros v. now rewrite !(filter_refIsConst_key reg T tbl) by exact Hk. }
  rewrite HT, removeConstRefs_map, map_map. apply map_ext. intros v.
  unfold withRefs; simpl. now rewrite !filter_idem.
Qed.

(** ** [printRefIdTest] *)

Lemma refIdCountCheck_assigned variables v :
  refIdCountCheck (fst (assignRefIds variables)) (snd (assignRefIds variables)) v
  = if negb (hasSubscripts v) && Nat.ltb 1 (List.length (varsWithName (varName v) variables))
    then ([("ERROR: more than one instance of scalar var", varName v)], true)
    else ([], false).
Proof.
  unfold refIdCountCheck, assignRefIds. cbn [fst snd].
  rewrite varsWithName_setRefIds.
  pose proof (isNonAtoAName_findNonAtoAVars variables (varName v)) as Hna.
  destruct (hasSubscripts v); simpl.
  - destruct (isNonAtoAName (findNonAtoAVars variables []) (varName v)) eqn:E.
    + destruct (Nat.ltb_spec (List.length (varsWithName (varName v) variables)) 2);
        [pose proof (proj1 Hna eq_refl); lia|reflexivity].
    + destruct (Nat.ltb_spec 1 (List.length (varsWithName (varName v) variables))) as [H|H];
        [apply Hna in H; discriminate|reflexivity].
  - reflexivity.
Qed.

Lemma in_assignRefIds variables v :
  In v (snd (assignRefIds variables)) ->
  exists u, In u variables /\ varName v = varName u /\ hasSubscripts v = hasSubscripts u.
Proof.
  unfold assignRefIds, setRefIds. cbn [snd]. intros Hv.
  apply in_map_iff in Hv as [u [<- Hu]]. exists u. split; [exact Hu|split; reflexivity].
Qed.

Lemma refIdCountChecks_clean nA tbl todo :
  (forall v, In v todo -> refIdCountCheck nA tbl v = ([], false)) ->
  refIdCountChecks nA tbl todo = ([], None).
Proof.
  induction todo as [|v rest IH]; intros H; simpl; [reflexivity|].
  rewrite (H v (or_introl eq_refl)), IH by (intros w Hw; apply H; now right). reflexivity.
Qed.

Lemma checkRefVar_dangling tbl l :
  flat_map (checkRefVar tbl) l
  = map (fun r => ("ERROR: no var for refId", r))
        (filter (fun r => match findByRefId tbl r with Some _ => false | None => true end) l).
Proof.
  induction l as [|r l IH]; simpl; [reflexivity|].
  rewrite IH. unfold checkRefVar.
  change (find (fun v => String.eqb (refId v) r) tbl) with (findByRefId tbl r).
  destruct (findByRefId tbl r); reflexivity.
Qed.

Lemma refChecks_dangling tbl L :
  List.concat (map (fun v => flat_map (checkRefVar tbl) (references v) ++
                             flat_map (checkRefVar tbl) (initReferences v)) L)
  = map (fun r => ("ERROR: no var for refId", r))
        (filter (fun r => match findByRefId tbl r with Some _ => false | None => true end)
                (flat_map (fun v => references v ++ initReferences v) L)).
Proof.
  induction L as [|v L IH]; simpl; [reflexivity|].
  rewrite IH, !checkRefVar_dangling, !filter_app, !map_app. rewrite <- ?app_assoc. reflexivity.
Qed.

(** Model.js [printRefIdTest] after refIds are assigned: when no var name
    of an unsubscripted record is shared, it throws nothing and logs only
    ["ERROR: no var for refId"], once for each reference or init reference
    that is no record's refId, in table order. *)
Theorem printRefIdTest_assigned variables :
  (forall v, In v variables -> hasSubscripts v = false ->
     (List.length (varsWithName (varName v) variables) <= 1)%nat) ->
  printRefIdTest (fst (assignRefIds variables)) (snd (assignRefIds variables))
  = (map (fun r => ("ERROR: no var for refId", r)) (danglingRefIds (snd (assignRefIds variables))),
     None).
Proof.
  intros Hs. unfold printRefIdTest.
  rewrite refIdCountChecks_clean.
  - simpl. rewrite refChecks_dangling. reflexivity.
  - intros v Hv. rewrite refIdCountCheck_assigned.
    destruct (in_assignRefIds _ _ Hv) as [u [Hu [Hn Hh]]].
    destruct (hasSubscripts v) eqn:Ev; [reflexivity|]. simpl. rewrite Hn.
    destruct (Nat.ltb_spec 1 (List.length (varsWithName (varName u) variables))) as [H|H];
      [|reflexivity].
    specialize (Hs u Hu (eq_sym Hh)). lia.
Qed.

Lemma find_first {A} (f : A -> bool) l x :
  find f l = Some x ->
  exists pre post, l = pre ++ x :: post /\ f x = true /\ Forall (fun y => f y = false) pre.
Proof.
  induction l as [|y l IH]; simpl; [discriminate|].
  destruct (f y) eqn:E.
  - intros [= <-]. exists [], l. auto.
  - intros H. destruct (IH H) as [pre [post [-> [Hx Hp]]]].
    exists (y :: pre), post. split; [reflexivity|]. split; [exact Hx|]. now constructor.
Qed.

Lemma refIdCountChecks_first nA tbl pre v post msgs :
  Forall (fun u => refIdCountCheck nA tbl u = ([], false)) pre ->
  refIdCountCheck nA tbl v = (msgs, true) ->
  refIdCountChecks nA tbl (pre ++ v :: post) = (msgs, Some (ReferenceError "printVars")).
Proof.
  intros Hpre Hv. induction Hpre as [|u pre Hu Hpre IH]; simpl.
  - now rewrite Hv.
  - rewrite Hu. simpl in IH. rewrite IH. reflexivity.
Qed.

(** Model.js [printRefIdTest] after [findNonAtoAVars] and [setRefIds]:
    when some scalar varName is shared by two or more records, the count
    check stops at the first record of the table that is such a scalar:
    it logs the one line "ERROR: more than one instance of scalar var" with
    that record's varName, then calls the undefined [printVars], which
    throws a ReferenceError before any reference is checked. *)
Theorem printRefIdTest_scalar_duplicate variables v :
  In v variables -> hasSubscripts v = false ->
  (1 < List.length (varsWithName (varName v) variables))%nat ->
  exists pre w post,
    variables = pre ++ w :: post /\
    hasSubscripts w = false /\ (1 < List.length (varsWithName (varName w) variables))%nat /\
    (forall u, In u pre ->
       hasSubscripts u = true \/ (List.length (varsWithName (varName u) variables) <= 1)%nat) /\
    printRefIdTest (fst (assignRefIds variables)) (snd (assignRefIds variables))
    = ([("ERROR: more than one instance of scalar var", varName w)], Some (ReferenceError "printVars")).
Proof.
  intros Hv Hh Hl.
  set (bad := fun u => negb (hasSubscripts u) && Nat.ltb 1 (List.length (varsWithName (varName u) variables))).
  destruct (find bad variables) as [w|] eqn:Hf.
  2: { exfalso. pose proof (find_none _ _ Hf v Hv) as H. unfold bad in H.
       rewrite Hh in H. apply Nat.ltb_lt in Hl. rewrite Hl in H. discriminate. }
  destruct (find_first _ _ _ Hf) as [pre [post [Hvars [Hw Hpre]]]].
  unfold bad in Hw. apply andb_true_iff in Hw as [Hw1 Hw2].
  apply negb_true_iff in Hw1. apply Nat.ltb_lt in Hw2.
  exists pre, w, post. split; [exact Hvars|]. split; [exact Hw1|]. split; [exact Hw2|]. split.
  - intros u Hu. rewrite Forall_forall in Hpre. specialize (Hpre u Hu). unfold bad in Hpre.
    destruct (hasSubscripts u); [now left|right]. simpl in Hpre.
    apply Nat.ltb_ge in Hpre. exact Hpre.
  - unfold printRefIdTest.
    assert (Hmap : snd (assignRefIds variables)
                   = map (fun u => withRefId u (refIdForVar (fst (assignRefIds variables)) u)) variables)
      by reflexivity.
    assert (Hc : refIdCountChecks (fst (assignRefIds variables)) (snd (assignRefIds variables))
                   (map (fun u => withRefId u (refIdForVar (fst (assignRefIds variables)) u))
                        (pre ++ w :: post))
                 = ([("ERROR: more than one instance of scalar var", varName w)],
                    Some (ReferenceError "printVars"))).
    2: { rewrite <- Hvars, <- Hmap in Hc. rewrite Hc. reflexivity. }
    rewrite map_app. cbn [map]. apply refIdCountChecks_first.
    + apply Forall_map. eapply Forall_impl; [|exact Hpre]. intros u Hu.
      rewrite refIdCountCheck_assigned. simpl. unfold hasSubscripts in *. simpl. fold bad.
      unfold bad in Hu |- *. unfold hasSubscripts in Hu. rewrite Hu. reflexivity.
    + rewrite refIdCountCheck_assigned. simpl. unfold hasSubscripts in *. simpl.
      rewrite Hw1. apply Nat.ltb_lt in Hw2. rewrite Hw2. reflexivity.
Qed.

(** ** [parseSpec] on parsed specs *)

(** sde-generate.js [parseSpec]: a spec file holding JSON [null] makes it
    throw a TypeError; any other parsed value without a truthy
    [dimensionFamilies] property is returned as it is. *)
Theorem parseSpec_without_families fs parse canon fn :
  (parseJsonFile fs parse fn = JNull -> parseSpec fs parse canon fn = inr TypeError) /\
  (forall v, parseJsonFile fs parse fn = v -> v <> JNull ->
     (forall fv, getProp v "dimensionFamilies" = inl (Some fv) -> truthy fv = false) ->
     parseSpec fs parse canon fn = inl v).
Proof.
  unfold parseSpec. split; [intros ->; reflexivity|].
  intros v Hv Hn Hf. rewrite Hv. destruct v as [| | | | |fields];
    try reflexivity; [contradiction|].
  simpl. destruct (assocGet "dimensionFamilies" fields) as [fv|] eqn:E; simpl; [|reflexivity].
  rewrite (Hf fv); [reflexivity|]. simpl. now rewrite E.
Qed.

Lemma assocGet_assocSet k v fs K :
  assocGet K (assocSet k v fs) = if String.eqb k K then Some v else assocGet K fs.
Proof.
  induction fs as [|[k' v'] fs IH]; simpl.
  - destruct (String.eqb k K); reflexivity.
  - destruct (String.eqb_spec k' k) as [->|Hne]; simpl.
    + destruct (String.eqb k K); reflexivity.
    + destruct (String.eqb_spec k' K) as [->|HK]; [|exact IH].
      destruct (String.eqb_spec k K); [congruence|reflexivity].
Qed.

Lemma keys_assocSet k v fs K :
  In K (map fst (assocSet k v fs)) <-> K = k \/ In K (map fst fs).
Proof.
  induction fs as [|[k' v'] fs IH]; simpl; [intuition congruence|].
  destruct (String.eqb_spec k' k) as [->|Hne]; simpl; [intuition congruence|].
  rewrite IH. tauto.
Qed.

Lemma NoDup_assocSet k v fs :
  NoDup (map fst fs) -> NoDup (map fst (assocSet k v fs)).
Proof.
  induction fs as [|[k' v'] fs IH]; intros H; simpl; [repeat constructor; intros []|].
  inversion H as [|? ? Hk Hd]; subst.
  destruct (String.eqb_spec k' k) as [->|Hne]; simpl; [now constructor|].
  constructor; [|now apply IH]. rewrite keys_assocSet. intros [E|E]; [congruence|contradiction].
Qed.

Section FamiliesFold.
Variable canon : Json -> string + JsError.
Variable c : Json -> string.

Definition familyStep (acc : list (string * Json) + JsError) (e : string * Json)
    : list (string * Json) + JsError :=
  acc' <-! acc ;;
  k <-! canon (JStr (fst e)) ;;
  v <-! canon (snd e) ;;
  inl (assocSet k (JStr v) acc').

Definition familyKey (e : string * Json) : string := c (JStr (fst e)).

Lemma familyStep_ok l : forall acc,
  (forall e, In e l -> canon (JStr (fst e)) = inl (c (JStr (fst e))) /\ canon (snd e) = inl (c (snd e))) ->
  fold_left familyStep l (inl acc)
  = inl (fold_left (fun acc e => assocSet (familyKey e) (JStr (c (snd e))) acc) l acc).
Proof.
  induction l as [|e l IH]; intros acc H; simpl; [reflexivity|].
  destruct (H e (or_introl eq_refl)) as [H1 H2].
  rewrite H1. simpl. rewrite H2. simpl. apply IH. intros e' He'. apply H. now right.
Qed.

Lemma families_fold_get l : forall acc K x,
  NoDup (map familyKey l) ->
  assocGet K (fold_left (fun acc e => assocSet (familyKey e) (JStr (c (snd e))) acc) l acc) = Some x
  <-> (exists k y, In (k, y) l /\ c (JStr k) = K /\ x = JStr (c y)) \/
      (~ In K (map familyKey l) /\ assocGet K acc = Some x).
Proof.
  induction l as [|[k0 y0] l IH]; intros acc K x Hnd; simpl.
  - split; [intros H; right; tauto|intros [[k [y [[] _]]]|[_ H]]; exact H].
  - inversion Hnd as [|? ? Hk Hd]; subst. rewrite IH by exact Hd.
    rewrite assocGet_assocSet. change (familyKey (k0, y0)) with (c (JStr k0)) in *.
    destruct (String.eqb_spec (c (JStr k0)) K) as [E|E].
    + subst K. split.
      * intros [[k [y [Hin [Hc ->]]]]|[_ Hx]].
        -- left. exists k, y. auto.
        -- injection Hx as <-. left. exists k0, y0. auto.
      * intros [[k [y [[Hin|Hin] [Hc ->]]]]|[Hn _]].
        -- injection Hin as -> ->. right. split; [exact Hk|reflexivity].
        -- exfalso. apply Hk. rewrite <- Hc. now apply (in_map familyKey _ (k, y)).
        -- exfalso. apply Hn. now left.
    + split.
      * intros [[k [y [Hin [Hc ->]]]]|[Hn H]]; [left; exists k, y; auto|].
        right. split; [intros [Hx|Hx]; [exact (E Hx)|exact (Hn Hx)]|exact H].
      * intros [[k [y [[Hin|Hin] [Hc ->]]]]|[Hn H]].
        -- injection Hin as -> ->. contradiction.
        -- left. exists k, y. auto.
        -- right. split; [intros Hx; apply Hn; now right|exact H].
Qed.

Lemma families_fold_NoDup l : forall acc,
  NoDup (map fst acc) ->
  NoDup (map fst (fold_left (fun acc e => assocSet (familyKey e) (JStr (c (snd e))) acc) l acc)).
Proof.
  induction l as [|e l IH]; intros acc H; simpl; [exact H|]. apply IH. now apply NoDup_assocSet.
Qed.

End FamiliesFold.

(** sde-generate.js [parseSpec]: when the spec is an object whose
    [dimensionFamilies] is an object, and [canonicalName] gives [c(x)] on
    each of its keys and values with no two keys of the same canonical
    name, the spec comes back with [dimensionFamilies] replaced by an object
    with one key per entry: [canonicalName(key)], holding
    [canonicalName(value)]. *)
Theorem parseSpec_canonical_families fs parse canon c fn fields fams :
  parseJsonFile fs parse fn = JObj fields ->
  assocGet "dimensionFamilies" fields = Some (JObj fams) ->
  (forall e, In e fams ->
     canon (JStr (fst e)) = inl (c (JStr (fst e))) /\ canon (snd e) = inl (c (snd e))) ->
  NoDup (map (fun e => c (JStr (fst e))) fams) ->
  exists f, parseSpec fs parse canon fn = inl (JObj (assocSet "dimensionFamilies" (JObj f) fields)) /\
    NoDup (map fst f) /\
    forall K x, assocGet K f = Some x <->
      exists k y, In (k, y) fams /\ c (JStr k) = K /\ x = JStr (c y).
Proof.
  intros Hp Hd Hc Hnd.
  exists (fold_left (fun acc e => assocSet (familyKey c e) (JStr (c (snd e))) acc) fams []).
  split; [|split].
  - unfold parseSpec. rewrite Hp. simpl. rewrite Hd. simpl.
    change (fold_left _ fams (inl [])) with (fold_left (familyStep canon) fams (inl [])).
    rewrite (familyStep_ok canon c fams [] Hc). reflexivity.
  - apply families_fold_NoDup. constructor.
  - intros K x. rewrite (families_fold_get canon c fams [] K x Hnd). simpl.
    split; [intros [H|[_ H]]; [exact H|discriminate]|intros H; now left].
Qed.

(** ** [readSubscriptRanges]: when the inversion succeeds *)

Lemma setMapped_ok d t f inv :
  inRange (size d) (indexOf t (value d)) ->
  exists inv', setMapped (Some (SubDim d)) t f inv = inl inv'.
Proof.
  intros [H0 H1]. unfold setMapped. simpl.
  replace (Z.leb 0 (indexOf t (value d)) && Z.ltb (indexOf t (value d)) (Z.of_nat (size d)))%bool
    with true by (symmetry; apply andb_true_iff; split; [apply Z.leb_le|apply Z.ltb_lt]; lia).
  eauto.
Qed.

Lemma setMappedAll_ok d names f : forall inv,
  Forall (inRange (size d)) (map (fun t => indexOf t (value d)) names) ->
  exists inv', setMappedAll (Some (SubDim d)) names f inv = inl inv'.
Proof.
  induction names as [|t r IH]; intros inv H; simpl; [eauto|].
  inversion H as [|? ? Ht Hr]; subst.
  destruct (setMapped_ok d t f inv Ht) as [inv1 ->]. simpl. now apply IH.
Qed.

Lemma mapEntry_ok reg d f s inv :
  sub reg s <> None -> Forall (inRange (size d)) (mapTargets reg (value d) s) ->
  exists inv', mapEntry reg (Some (SubDim d)) f (Some s) inv = inl inv'.
Proof.
  unfold mapEntry, mapTargets. destruct (sub reg s) as [[e|ix]|]; intros Hn H;
    [now apply setMappedAll_ok| |contradiction].
  inversion H; subst. now apply setMapped_ok.
Qed.

Lemma invertFrom_ok reg d mv fromVals : forall i inv0,
  (forall j, j < List.length fromVals ->
     exists s, toSubNameAt mv (i + j) = Some s /\ sub reg s <> None /\
       Forall (inRange (size d)) (mapTargets reg (value d) s)) ->
  exists inv, invertFrom reg (Some (SubDim d)) fromVals i mv inv0 = inl inv.
Proof.
  induction fromVals as [|f r IH]; intros i inv0 H; simpl; [eauto|].
  destruct (H 0 ltac:(simpl; lia)) as [s [Hs [Hn Hf]]]. rewrite Nat.add_0_r in Hs.
  rewrite Hs. destruct (mapEntry_ok reg d f s inv0 Hn Hf) as [inv1 ->]. simpl.
  apply IH. intros j Hj. replace (S i + j) with (i + S j) by lia. apply H. simpl. lia.
Qed.

Lemma toSubNameAt_app mv extra j :
  j < List.length mv -> toSubNameAt (mv ++ extra) j = toSubNameAt mv j.
Proof. intros H. unfold toSubNameAt. now rewrite nth_error_app1. Qed.

Lemma invertFrom_app reg td mv extra fromVals : forall i inv0,
  i + List.length fromVals <= List.length mv ->
  invertFrom reg td fromVals i (mv ++ extra) inv0 = invertFrom reg td fromVals i mv inv0.
Proof.
  induction fromVals as [|f r IH]; intros i inv0 H; simpl; [reflexivity|].
  simpl in H. rewrite toSubNameAt_app by lia.
  destruct (mapEntry reg td f (toSubNameAt mv i) inv0); simpl; [|reflexivity].
  apply IH. lia.
Qed.

(** Model.js [readSubscriptRanges]: a non-empty mapping value onto the
    dimension [toDimName] is inverted without an exception exactly when
    every index [i] of [fromDim.value] has an entry [mappingValue[i]] naming
    a known subscript whose indices all lie inside [toDim]. *)
Theorem invertMapping_succeeds reg fromDim toDimName toDim mv :
  sub reg toDimName = Some (SubDim toDim) -> mv <> [] ->
  ((exists inv, invertMapping reg fromDim toDimName mv = inl inv) <->
   forall j, j < List.length (value fromDim) ->
     exists s, toSubNameAt mv j = Some s /\ sub reg s <> None /\
       Forall (inRange (size toDim)) (mapTargets reg (value toDim) s)).
Proof.
  intros Ht Hmv. unfold invertMapping. destruct mv as [|m mv]; [contradiction|]. rewrite Ht.
  split.
  - intros [inv H]. exact (proj1 (invertFrom_spec _ _ _ _ _ _ _ H)).
  - intros H. apply invertFrom_ok. exact H.
Qed.

(** Model.js [readSubscriptRanges]: entries of a non-empty mapping value
    past the length of [fromDim.value] are never read; appending entries to
    a mapping value that already covers [fromDim] leaves the inversion and
    its exceptions unchanged. *)
Theorem invertMapping_extra_entries reg fromDim toDimName mv extra :
  mv <> [] -> List.length (value fromDim) <= List.length mv ->
  invertMapping reg fromDim toDimName (mv ++ extra) = invertMapping reg fromDim toDimName mv.
Proof.
  intros Hmv Hl. unfold invertMapping. destruct mv as [|m mv]; [contradiction|].
  simpl app. rewrite (invertFrom_app reg _ (m :: mv) extra) by (simpl in *; lia). reflexivity.
Qed.

(** ** [readSubscriptRanges]: the expansion loop at its exit *)

Lemma expandPass_clean todo : forall done out,
  expandPass done todo false = (out, false) ->
  out = done ++ todo /\ forall D, In D todo -> expandValue (done ++ todo) (value D) = value D.
Proof.
  induction todo as [|dim rest IH]; intros done out H; simpl in H.
  - injection H as <-. rewrite app_nil_r. split; [reflexivity|intros D []].
  - destruct (list_eq_dec string_dec _ _) as [E|E].
    + destruct (IH _ _ H) as [Ho Hf]. rewrite <- app_assoc in Ho, Hf. simpl in Ho, Hf.
      split; [exact Ho|]. intros D [<-|HD]; [exact E|exact (Hf D HD)].
    + pose proof (expandPass_found rest (done ++ [withValue dim (expandValue (done ++ dim :: rest) (value dim))]) true) as Hf.
      rewrite H in Hf. destruct (Hf eq_refl) as [Ht _]. discriminate.
Qed.

Lemma expandPass_noop todo : forall done,
  (forall D, In D todo -> expandValue (done ++ todo) (value D) = value D) ->
  expandPass done todo false = (done ++ todo, false).
Proof.
  induction todo as [|dim rest IH]; intros done H; simpl; [now rewrite app_nil_r|].
  destruct (list_eq_dec string_dec _ _) as [E|E]; [|exfalso; apply E, H; now left].
  rewrite IH; [now rewrite <- app_assoc|].
  intros D HD. rewrite <- app_assoc. apply H. now right.
Qed.

(** Model.js [readSubscriptRanges]: when the expansion loop stops, one more
    pass would change no dimension (every value is its own expansion); and
    on dimensions that are already so, the loop stops after one pass
    leaving every dimension as it was, [size] included. *)
Theorem expandDims_fixpoint fuel dims :
  (forall out, expandDims fuel dims = Some out ->
     forall D, In D out -> expandValue out (value D) = value D) /\
  (0 < fuel -> (forall D, In D dims -> expandValue dims (value D) = value D) ->
     expandDims fuel dims = Some dims).
Proof.
  split.
  - revert dims. induction fuel as [|fuel IH]; intros dims out H; simpl in H; [discriminate|].
    destruct (expandPass [] dims false) as [dims' [|]] eqn:E; [exact (IH _ _ H)|].
    injection H as ->. destruct (expandPass_clean dims [] _ E) as [-> Hc]. exact Hc.
  - intros Hf H. destruct fuel as [|fuel]; [lia|]. simpl.
    rewrite (expandPass_noop dims [] H). reflexivity.
Qed.

(** ** [refIdForVar]: distinct records, distinct refIds *)

Lemma splitMatches_bare n : word n -> splitMatches false "" [] (lexRefId "" n) = (n, []).
Proof.
  intros Hn. pose proof (word_not_bracket _ Hn) as Hb. destruct Hn as [Hne Hw].
  rewrite <- (append_empty_r n).
  rewrite lexRefId_word by exact Hw. cbn -[String.eqb]. rewrite append_empty_r.
  destruct n as [|c r]; [congruence|]. cbn -[String.eqb].
  destruct (String.eqb_spec (String c r) "[") as [E|_]; [contradiction|reflexivity].
Qed.

Lemma splitMatches_refIdForVar nonAtoANames v :
  word (varName v) -> Forall word (subscripts v) ->
  splitMatches false "" [] (lexRefId "" (refIdForVar nonAtoANames v))
  = (varName v, if isNonAtoAName nonAtoANames (varName v) then subscripts v else []).
Proof.
  intros Hn Hs. unfold refIdForVar.
  destruct (isNonAtoAName nonAtoANames (varName v)) eqn:Hna.
  2: { rewrite andb_false_r. now apply splitMatches_bare. }
  rewrite andb_true_r. unfold hasSubscripts.
  destruct (subscripts v) as [|s0 ss] eqn:Hsub.
  { now apply splitMatches_bare. }
  rewrite <- Hsub. cbn [String.append].
  rewrite (lexRefId_word_then (varName v) "[" _) by (auto; reflexivity).
  rewrite Ascii.eqb_refl.
  rewrite lexRefId_join_close by (rewrite Hsub; discriminate || exact Hs).
  cbn [app splitMatches].
  destruct (String.eqb_spec (varName v) "[") as [E|_];
    [exfalso; exact (word_not_bracket _ Hn E)|].
  rewrite String.eqb_refl. rewrite Hsub in *.
  rewrite splitMatches_subs; [reflexivity|exact Hs|].
  eapply Forall_impl; [|exact Hs]. intros a Ha. now apply word_not_bracket.
Qed.

(** Model.js [refIdForVar]: for records whose varName and subscripts are
    word names, equal refIds come only from records with the same varName,
    and, for a non-apply-to-all varName, with the same subscripts. *)
Theorem refIdForVar_injective nonAtoANames v1 v2 :
  word (varName v1) -> Forall word (subscripts v1) ->
  word (varName v2) -> Forall word (subscripts v2) ->
  refIdForVar nonAtoANames v1 = refIdForVar nonAtoANames v2 ->
  varName v1 = varName v2 /\
  (isNonAtoAName nonAtoANames (varName v1) = true -> subscripts v1 = subscripts v2).
Proof.
  intros Hn1 Hs1 Hn2 Hs2 E.
  pose proof (splitMatches_refIdForVar nonAtoANames v1 Hn1 Hs1) as H1.
  pose proof (splitMatches_refIdForVar nonAtoANames v2 Hn2 Hs2) as H2.
  rewrite E, H2 in H1. injection H1 as Hname Hsubs.
  split; [congruence|]. intros Hna. rewrite Hname in Hsubs.
  rewrite Hna in Hsubs. congruence.
Qed.

(** ** [sortVarsOfType]: when it fails *)

Lemma map_option_none {A B} (f : A -> option B) l x :
  In x l -> f x = None -> map_option f l = None.
Proof.
  induction l as [|y l IH]; intros Hx Hf; [destruct Hx|]. simpl.
  destruct Hx as [<-|Hx]; [now rewrite Hf|].
  destruct (f y); simpl; [|reflexivity]. now rewrite IH.
Qed.

Lemma before_pos {A} (a b : A) l :
  before a b l -> exists i j, i < j /\ nth_error l i = Some a /\ nth_error l j = Some b.
Proof.
  intros [l1 [l2 [-> [Ha Hb]]]].
  destruct (In_nth_error _ _ Ha) as [i Hi]. destruct (In_nth_error _ _ Hb) as [j Hj].
  assert (Hil : i < List.length l1) by (apply nth_error_Some; congruence).
  exists i, (List.length l1 + j). split; [lia|]. split.
  - now rewrite nth_error_app1.
  - rewrite nth_error_app2 by lia. now replace (List.length l1 + j - List.length l1) with j by lia.
Qed.

Lemma nth_error_NoDup_eq {A} (l : list A) i j x :
  NoDup l -> nth_error l i = Some x -> nth_error l j = Some x -> i = j.
Proof.
  intros Hnd Hi Hj. apply (proj1 (NoDup_nth_error l) Hnd); [apply nth_error_Some; congruence|congruence].
Qed.

Lemma reaches_pos g out :
  NoDup out -> (forall a b, In (a, b) g -> before a b out) ->
  forall a b, reaches g a b ->
  exists i j, i < j /\ nth_error out i = Some a /\ nth_error out j = Some b.
Proof.
  intros Hnd Hbef a b H. induction H as [a b Hab|a b c Hab Hbc IH].
  - exact (before_pos _ _ _ (Hbef a b Hab)).
  - destruct (before_pos _ _ _ (Hbef a b Hab)) as [i [k [Hik [Hi Hk]]]].
    destruct IH as [k' [j [Hkj [Hk' Hj]]]].
    pose proof (nth_error_NoDup_eq _ _ _ _ Hnd Hk Hk'). subst k'.
    exists i, j. split; [lia|auto].
Qed.

(** Model.js [sortVarsOfType]: when a record of the type has a reference
    that resolves to no variable, the code throws (reading [varType] of
    [undefined]) and no ordering is returned. *)
Theorem sortVarsOfType_unresolved reg variables t v r :
  In v (varsOfType t variables) -> In r (references v) ->
  varWithRefId reg variables r = None ->
  sortVarsOfType reg variables t = None.
Proof.
  intros Hv Hr Hn. unfold sortVarsOfType, depGraph.
  assert (Hp : depPairs reg variables t v = None).
  { unfold depPairs. now rewrite (map_option_none _ _ r Hr Hn). }
  now rewrite (map_option_none _ _ v Hv Hp).
Qed.

(** Model.js [sortVarsOfType]: when the dependency graph of the type has
    a cycle (a refId reachable from itself, e.g. a record referencing
    itself), the topological sort fails and no ordering is returned. *)
Theorem sortVarsOfType_cycle reg variables t graph a :
  depGraph reg variables t = Some graph -> reaches graph a a ->
  sortVarsOfType reg variables t = None.
Proof.
  intros Hg Hc. unfold sortVarsOfType. rewrite Hg. simpl.
  destruct (toposort graph) as [out|] eqn:Ht; [|reflexivity]. exfalso.
  destruct (toposort_spec _ _ Ht) as [Hnd [_ Hbef]].
  destruct (reaches_pos _ _ Hnd Hbef _ _ Hc) as [i [j [Hij [Hi Hj]]]].
  pose proof (nth_error_NoDup_eq _ _ _ _ Hnd Hi Hj). lia.
Qed.

(** ** [readSubscriptRanges]: the family pass run twice *)

Lemma insert_by_map {A B} (le : A -> A -> bool) (le' : B -> B -> bool) (g : A -> B) x l :
  (forall a b, le' (g a) (g b) = le a b) ->
  insert_by le' (g x) (map g l) = map g (insert_by le x l).
Proof.
  intros Hle. induction l as [|y l IH]; simpl; [reflexivity|].
  rewrite Hle. destruct (le x y); simpl; [reflexivity|]. now rewrite IH.
Qed.

Lemma sort_by_map {A B} (le : A -> A -> bool) (le' : B -> B -> bool) (g : A -> B) l :
  (forall a b, le' (g a) (g b) = le a b) ->
  sort_by le' (map g l) = map g (sort_by le l).
Proof.
  intros Hle. induction l as [|x l IH]; simpl; [reflexivity|].
  rewrite IH. now apply insert_by_map.
Qed.

Lemma last_opt_map {A B} (g : A -> B) l : last_opt (map g l) = option_map g (last_opt l).
Proof.
  induction l as [|x [|y l] IH]; simpl; try reflexivity. exact IH.
Qed.

Lemma filter_map_same {A} (p : A -> bool) (g : A -> A) l :
  (forall a, p (g a) = p a) -> filter p (map g l) = map g (filter p l).
Proof.
  intros Hp. induction l as [|x l IH]; simpl; [reflexivity|].
  rewrite Hp. destruct (p x); simpl; now rewrite IH.
Qed.

Lemma resolveFamily_fields fams allDims D :
  name (resolveFamily fams allDims D) = name D /\
  value (resolveFamily fams allDims D) = value D /\
  size (resolveFamily fams allDims D) = size D.
Proof.
  unfold resolveFamily. destruct (specFamily fams (name D)); [auto|].
  destruct (last_opt _); auto.
Qed.

(** The family found for [D] depends on the dimensions only through their
    names, values and sizes. *)
Lemma resolveFamily_relabel fams (g : Dimension -> Dimension) allDims D :
  (forall d, name (g d) = name d /\ value (g d) = value d /\ size (g d) = size d) ->
  resolveFamily fams (map g allDims) D = resolveFamily fams allDims D.
Proof.
  intros Hg. unfold resolveFamily. destruct (specFamily fams (name D)); [reflexivity|].
  rewrite filter_map_same.
  2: { intros a. destruct (Hg a) as [_ [-> _]]. reflexivity. }
  rewrite sort_by_map with (le := dimLe).
  2: { intros a b. unfold dimLe, dimComparator.
       destruct (Hg a) as [-> [_ ->]]. destruct (Hg b) as [-> [_ ->]]. reflexivity. }
  rewrite last_opt_map. destruct (last_opt _) as [d|]; simpl; [|reflexivity].
  now rewrite (proj1 (Hg d)).
Qed.

(** Model.js [readSubscriptRanges]: the family loop reads no field it
    writes, so running it a second time over its own result changes no
    dimension. *)
Theorem resolveFamilies_idempotent fams allDims :
  resolveFamilies fams (resolveFamilies fams allDims) = resolveFamilies fams allDims.
Proof.
  unfold resolveFamilies at 1 2. rewrite map_map. apply map_ext. intros D.
  rewrite (resolveFamily_relabel fams (resolveFamily fams allDims) allDims)
    by (intros d; apply resolveFamily_fields).
  destruct (resolveFamily_fields fams allDims D) as [Hn [Hv Hs]].
  unfold resolveFamily at 1. rewrite Hn, Hv.
  unfold resolveFamily. destruct (specFamily fams (name D)) as [f|]; [reflexivity|].
  destruct (last_opt _) as [d|]; reflexivity.
Qed.

(** * Witnesses of the further properties *)

Lemma printRefIdTest_assigned_witness :
  danglingRefIds (snd (assignRefIds danglingVars)) = ["_y"] /\
  printRefIdTest (fst (assignRefIds danglingVars)) (snd (assignRefIds danglingVars))
  = (map (fun r => ("ERROR: no var for refId", r)) (danglingRefIds (snd (assignRefIds danglingVars))),
     None).
Proof.
  split; [vm_compute; reflexivity|].
  apply printRefIdTest_assigned. intros v [<-|[]] _. apply Nat.leb_le. vm_compute. reflexivity.
Defined.

Lemma printRefIdTest_scalar_duplicate_witness :
  printRefIdTest (fst (assignRefIds dupScalars)) (snd (assignRefIds dupScalars))
  = ([("ERROR: more than one instance of scalar var", "_z")], Some (ReferenceError "printVars")) /\
  exists pre w post,
    dupScalars = pre ++ w :: post /\
    hasSubscripts w = false /\ (1 < List.length (varsWithName (varName w) dupScalars))%nat /\
    (forall u, In u pre ->
       hasSubscripts u = true \/ (List.length (varsWithName (varName u) dupScalars) <= 1)%nat) /\
    printRefIdTest (fst (assignRefIds dupScalars)) (snd (assignRefIds dupScalars))
    = ([("ERROR: more than one instance of scalar var", varName w)], Some (ReferenceError "printVars")).
Proof.
  split; [vm_compute; reflexivity|].
  apply (printRefIdTest_scalar_duplicate dupScalars (mkVariable "_x" [] "" Aux false [] [])).
  - right. right. left. reflexivity.
  - reflexivity.
  - apply Nat.ltb_lt. vm_compute. reflexivity.
Defined.

Lemma parseSpec_canonical_families_witness :
  exists f,
    parseSpec specFs familiesParse prefixName "spec.json"
    = inl (JObj (assocSet "dimensionFamilies" (JObj f) sampleSpecFields)) /\
    NoDup (map fst f) /\
    forall K x, assocGet K f = Some x <->
      exists k y, In (k, y) sampleFamilies /\ prefixNameStr (JStr k) = K /\ x = JStr (prefixNameStr y).
Proof.
  apply (parseSpec_canonical_families specFs familiesParse prefixName prefixNameStr "spec.json"
           sampleSpecFields sampleFamilies).
  - reflexivity.
  - reflexivity.
  - unfold sampleFamilies. intros e [<-|[<-|[]]]; split; reflexivity.
  - vm_compute. nodup_strings.
Defined.

Lemma invertMapping_succeeds_witness :
  (exists inv, invertMapping mapRegistryOk dimAOk "_dimb" [Some "_b2"; Some "_b1"] = inl inv) <->
  forall j, j < List.length (value dimAOk) ->
    exists s, toSubNameAt [Some "_b2"; Some "_b1"] j = Some s /\ sub mapRegistryOk s <> None /\
      Forall (inRange (size dimBOk)) (mapTargets mapRegistryOk (value dimBOk) s).
Proof.
  apply invertMapping_succeeds; [reflexivity|discriminate].
Defined.

Lemma invertMapping_extra_entries_witness :
  invertMapping mapRegistryOk dimAOk "_dimb" ([Some "_b2"; Some "_b1"] ++ [Some "_c1"])
  = invertMapping mapRegistryOk dimAOk "_dimb" [Some "_b2"; Some "_b1"].
Proof.
  apply invertMapping_extra_entries; [discriminate|simpl; lia].
Defined.

Lemma refIdForVar_injective_witness :
  varName xAB = varName (mkVariable "_x" ["_a1"; "_b2"] "_x[_a1,_b2]" Const true [] []) /\
  (isNonAtoAName [("_x", [true; true])] (varName xAB) = true ->
   subscripts xAB = subscripts (mkVariable "_x" ["_a1"; "_b2"] "_x[_a1,_b2]" Const true [] [])).
Proof.
  apply refIdForVar_injective.
  - split; [discriminate|reflexivity].
  - repeat constructor; discriminate.
  - split; [discriminate|reflexivity].
  - repeat constructor; discriminate.
  - reflexivity.
Defined.

Lemma sortVarsOfType_unresolved_witness :
  sortVarsOfType emptyRegistry danglingVars Aux = None.
Proof.
  apply (sortVarsOfType_unresolved emptyRegistry danglingVars Aux
           (mkVariable "_x" [] "" Aux false ["_y"] []) "_y").
  - vm_compute. left. reflexivity.
  - left. reflexivity.
  - vm_compute. reflexivity.
Defined.

Lemma sortVarsOfType_cycle_witness :
  sortVarsOfType emptyRegistry selfRefVars Aux = None.
Proof.
  apply (sortVarsOfType_cycle emptyRegistry selfRefVars Aux [("_z", "_z")] "_z").
  - vm_compute. reflexivity.
  - apply reaches_one. left. reflexivity.
Defined.

(** * Reference resolution in full *)

Lemma find_map_first {A B} (f : B -> bool) (g : A -> B) l x :
  find f (map g l) = Some x ->
  exists pre u post, l = pre ++ u :: post /\ g u = x /\ f (g u) = true /\
    Forall (fun p => f (g p) = false) pre.
Proof.
  induction l as [|y l IH]; simpl; [discriminate|].
  destruct (f (g y)) eqn:E.
  - intros [= <-]. exists [], y, l. auto.
  - intros H. destruct (IH H) as [pre [u [post [-> [Hg [Hu Hp]]]]]].
    exists (y :: pre), u, post. split; [reflexivity|]. split; [exact Hg|]. split; [exact Hu|].
    now constructor.
Qed.

Lemma findByRefId_first tbl r w :
  findByRefId tbl r = Some w ->
  exists pre post, tbl = pre ++ w :: post /\ refId w = r /\ Forall (fun u => refId u <> r) pre.
Proof.
  unfold findByRefId. intros H. destruct (find_first _ _ _ H) as [pre [post [-> [Hw Hp]]]].
  exists pre, post. split; [reflexivity|]. split; [now apply String.eqb_eq|].
  eapply Forall_impl; [|exact Hp]. intros u Hu. now apply String.eqb_neq.
Qed.

Lemma findByRefId_none tbl r : findByRefId tbl r = None -> Forall (fun u => refId u <> r) tbl.
Proof.
  unfold findByRefId. intros H. apply Forall_forall. intros u Hu.
  apply String.eqb_neq. exact (find_none _ _ H u Hu).
Qed.

Lemma removeConstRefsLogFrom_dangling reg tbl r todo : forall done,
  map varKey (done ++ todo) = map varKey tbl ->
  varWithRefId reg tbl r = None ->
  forall v, In v todo -> In r (references v) \/ In r (initReferences v) ->
  In ("ERROR: no var found for refId", r) (removeConstRefsLogFrom reg done todo).
Proof.
  induction todo as [|v rest IH]; intros done Hk Hn u Hu Hr; [destruct Hu|].
  simpl. rewrite !in_app_iff.
  assert (Hlog : varWithRefIdLog reg (done ++ v :: rest) r = [("ERROR: no var found for refId", r)]).
  { unfold varWithRefIdLog.
    pose proof (varWithRefId_key reg (done ++ v :: rest) tbl r Hk) as E. rewrite Hn in E.
    destruct (varWithRefId reg (done ++ v :: rest) r); [discriminate|reflexivity]. }
  destruct Hu as [<-|Hu].
  - destruct Hr as [Hr|Hr]; [left|right; left]; apply in_flat_map; exists r;
      rewrite Hlog; split; auto; now left.
  - right. right. apply (IH _) with (v := u); [|exact Hn|exact Hu|exact Hr].
    rewrite <- Hk, <- app_assoc, !map_app. reflexivity.
Qed.

(** C4 (as amended): [varWithRefId] binds a refId to the first record of
    the table with that refId; when there is none, it takes the first
    record of the reference's varName (in table order) whose subscripts
    match position by position, and binds the first record carrying that
    record's refId.  It binds some record exactly when some record matches
    (directly or by name and subscripts), with the per-position rule: equal
    indices, equal dimensions, or a dimension on the variable that contains
    the index on the reference; an index on the variable never matches a
    dimension on the reference.  A reference or init reference that binds no
    record makes [removeConstRefs] log "ERROR: no var found for refId" for it
    and go on, and it stays in the pruned record's list. *)
Theorem varWithRefId_resolution reg tbl r :
  (forall w, varWithRefId reg tbl r = Some w ->
     (exists pre post, tbl = pre ++ w :: post /\ refId w = r /\
        Forall (fun u => refId u <> r) pre) \/
     (Forall (fun u => refId u <> r) tbl /\
      exists pre u post,
        varsWithName (fst (splitRefId reg r)) tbl = pre ++ u :: post /\
        subscriptsMatch reg (snd (splitRefId reg (refId u))) (snd (splitRefId reg r)) = true /\
        Forall (fun p => subscriptsMatch reg (snd (splitRefId reg (refId p)))
                                         (snd (splitRefId reg r)) = false) pre /\
        exists pre' post', tbl = pre' ++ w :: post' /\ refId w = refId u /\
          Forall (fun x => refId x <> refId u) pre')) /\
  (forall w, findByRefId tbl r = Some w -> varWithRefId reg tbl r = Some w) /\
  ((exists w, In w tbl /\ bindsTo reg r w) <-> varWithRefId reg tbl r <> None) /\
  (forall s x,
     subscriptMatches reg s (Some x) = true <->
     (isIndex reg s = true /\ isIndex reg x = true /\ s = x) \/
     (isDimension reg s = true /\ isDimension reg x = true /\ s = x) \/
     (isDimension reg s = true /\ isIndex reg x = true /\ dimIncludes reg s x = true)) /\
  (forall v, In v tbl -> In r (references v) \/ In r (initReferences v) ->
     varWithRefId reg tbl r = None ->
     In ("ERROR: no var found for refId", r) (removeConstRefsLog reg tbl) /\
     exists v', In v' (removeConstRefs reg tbl) /\ varName v' = varName v /\ refId v' = refId v /\
       (In r (references v) -> In r (references v')) /\
       (In r (initReferences v) -> In r (initReferences v'))).
Proof.
  split; [|split; [|split; [|split]]].
  - intros w. unfold varWithRefId.
    destruct (findByRefId tbl r) as [u|] eqn:Hf.
    + intros [= <-]. left. now apply findByRefId_first.
    + right. split; [now apply findByRefId_none|].
      destruct (splitRefId reg r) as [n subs] eqn:Hs. simpl.
      destruct (find _ (refIdsWithName n tbl)) as [x|] eqn:Hx; [|discriminate].
      rename H into Hw. unfold refIdsWithName in Hx.
      destruct (find_map_first _ _ _ _ Hx) as [pre [u [post [Hl [Hux [Hm Hp]]]]]].
      exists pre, u, post. split; [exact Hl|]. split; [exact Hm|]. split; [exact Hp|].
      subst x. destruct (findByRefId_first _ _ _ Hw) as [pre' [post' [Ht [Hr Hp']]]].
      exists pre', post'. auto.
  - intros w Hw. unfold varWithRefId. now rewrite Hw.
  - split.
    + intros [w [Hw Hb]]. unfold varWithRefId.
      destruct (findByRefId tbl r) as [u|] eqn:Hf; [discriminate|].
      destruct Hb as [Hb|[Hn Hm]].
      * subst r. exfalso. exact (findByRefId_complete tbl w Hw Hf).
      * destruct (splitRefId reg r) as [n subs] eqn:Hs. simpl in Hn, Hm.
        destruct (find _ (refIdsWithName n tbl)) as [x|] eqn:Hx.
        -- apply find_some in Hx as [Hxin _].
           apply in_refIdsWithName in Hxin as [u [Hu [_ <-]]].
           exact (findByRefId_complete tbl u Hu).
        -- exfalso.
           assert (Hin : In (refId w) (refIdsWithName n tbl))
             by (apply in_refIdsWithName; eauto).
           pose proof (find_none _ _ Hx _ Hin) as H. simpl in H. congruence.
    + intros Hs. destruct (varWithRefId reg tbl r) as [w|] eqn:Hv; [|contradiction].
      unfold varWithRefId in Hv. destruct (findByRefId tbl r) as [u|] eqn:Hf.
      * injection Hv as <-. apply findByRefId_some in Hf as [Hu Hr].
        exists u. split; [exact Hu|now left].
      * destruct (splitRefId reg r) as [n subs] eqn:Hsp.
        destruct (find _ (refIdsWithName n tbl)) as [x|] eqn:Hx; [|discriminate].
        apply find_some in Hx as [Hxin Hm].
        apply in_refIdsWithName in Hxin as [u [Hu [Hn <-]]].
        exists u. split; [exact Hu|right]. rewrite Hsp. simpl. auto.
  - intros s x. unfold subscriptMatches, isIndex, isDimension, dimIncludes, opt_str_eqb.
    destruct (sub reg s) as [[d|i]|], (sub reg x) as [[d'|i']|]; simpl;
      rewrite ?String.eqb_eq; intuition congruence.
  - intros v Hv Hr Hn. split.
    + unfold removeConstRefsLog. now apply (removeConstRefsLogFrom_dangling reg tbl r tbl []) with (v := v).
    + assert (Hc : refIsConst reg tbl r = false) by (unfold refIsConst; now rewrite Hn).
      exists (withRefs v (filter (fun r => negb (refIsConst reg tbl r)) (references v))
                         (filter (fun r => negb (refIsConst reg tbl r)) (initReferences v))).
      rewrite removeConstRefs_map. split; [apply in_map_iff; now exists v|]. simpl.
      split; [reflexivity|]. split; [reflexivity|].
      split; intros H; apply filter_In; rewrite Hc; auto.
Qed.

(** * Map-to indices outside the target dimension *)

Lemma indexOf_notin x l : ~ In x l -> indexOf x l = (-1)%Z.
Proof.
  induction l as [|y l IH]; simpl; [reflexivity|]. intros Hn.
  destruct (String.eqb_spec y x) as [->|_]; [exfalso; auto|].
  rewrite IH by auto. reflexivity.
Qed.

(** C7 (code defect): a mapping entry naming an index that is not in the
    target dimension does not log "map-to index not found" and go on, as
    [setMappingValue] intends: its message reads [toSubName], which is out of
    scope there, so the inversion throws a ReferenceError.  Shown here for
    the first entry of any mapping to a dimension. *)
Theorem invertMapping_index_outside_toDim reg fromDim toDimName toDim f rest s ix mv :
  sub reg toDimName = Some (SubDim toDim) ->
  value fromDim = f :: rest ->
  sub reg s = Some (SubIdx ix) ->
  ~ In (iname ix) (value toDim) ->
  invertMapping reg fromDim toDimName (Some s :: mv) = inr (ReferenceError "toSubName").
Proof.
  intros Ht Hv Hs Hn. unfold invertMapping. rewrite Hv, Ht. simpl.
  unfold toSubNameAt, mapEntry. simpl. rewrite Hs.
  unfold setMapped. simpl. rewrite (indexOf_notin _ _ Hn). reflexivity.
Qed.

Lemma invertMapping_index_outside_toDim_witness :
  invertMapping mapRegistry (mkDimension "_dima" ["_a1"; "_a2"] 2 "_dima" []) "_dimb"
    [Some "_c1"; Some "_b1"] = inr (ReferenceError "toSubName").
Proof.
  apply (invertMapping_index_outside_toDim mapRegistry
           (mkDimension "_dima" ["_a1"; "_a2"] 2 "_dima" []) "_dimb"
           (mkDimension "_dimb" ["_b1"; "_b2"] 2 "_dimb" []) "_a1" ["_a2"] "_c1"
           (mkIndex "_c1" 0 "_dimc") [Some "_b1"]).
  - vm_compute. reflexivity.
  - reflexivity.
  - vm_compute. reflexivity.
  - simpl. intros [H|[H|H]]; [discriminate H|discriminate H|exact H].
Defined.
